(** * ADCPy: the transect-averaging driver [transect_average.py]

    A shallow embedding of the driver script: its options block, the
    per-group pipeline of [DWR_transect_average] and the label selection of
    [plot_avg_n_sd].  The functions imported from [ADCPy], [ADCPy_recipes],
    [DWR_transect_preprocessor], [numpy] and [matplotlib] are collaborators
    of the driver; they are taken as an interface ([Collaborators]) whose
    members may change the outside world and may raise.  The driver is a
    program in a small monad that threads the world, logs every call made to
    a collaborator and propagates exceptions the way Python does. *)

From Stdlib Require Import List String Ascii Bool Arith ZArith Lia.
From Stdlib Require Import Floats.
From Stdlib Require DecimalString DecimalNat DecimalFacts.
From Stdlib Require Import Sorted.
Import ListNotations.

Local Open Scope list_scope.
Local Open Scope string_scope.
Set Warnings "-inexact-float".

(** ** Python values used by the driver *)

(** A Python exception, identified by its class name. *)
Definition Exn := string.

(** The outcome of a call: a returned value or a raised exception. *)
Inductive result (A : Type) : Type :=
| Ok (a : A)
| Raise (e : Exn).
Arguments Ok {A} a.
Arguments Raise {A} e.

Definition exn_of {A} (r : result A) : option Exn :=
  match r with Ok _ => None | Raise e => Some e end.

(** The values [plot_avg_n_sd] may receive in its [uvw] parameter: the driver
    passes integers, the docstring speaks of strings. *)
Inductive PyVal : Type :=
| PyInt (z : Z)
| PyFloat (f : float)
| PyBool (b : bool)
| PyStr (s : string)
| PyNone.

(** The float nearest to a (small) integer literal. *)
Definition float_of_Z (k : Z) : float :=
  if Z.ltb k 0
  then PrimFloat.opp (PrimFloat.of_uint63 (Uint63.of_Z (Z.opp k)))
  else PrimFloat.of_uint63 (Uint63.of_Z k).

(** Python's [v == k] for an integer literal [k]: numbers compare by value
    ([0.0 == 0] and [False == 0] hold), a string or [None] never equals a
    number. *)
Definition py_eq_int (v : PyVal) (k : Z) : bool :=
  match v with
  | PyInt z => Z.eqb z k
  | PyFloat f => PrimFloat.eqb f (float_of_Z k)
  | PyBool b => Z.eqb (if b then 1 else 0) k
  | PyStr _ => false
  | PyNone => false
  end.

(** ** String formatting *)

(** [str(n)] for a non-negative integer. *)
Definition decimal (n : nat) : string :=
  DecimalString.NilEmpty.string_of_uint (Nat.to_uint n).

Fixpoint zeros (k : nat) : string :=
  match k with
  | O => EmptyString
  | S k' => String "0" (zeros k')
  end.

(** ["%03i" % n]: decimal digits, padded on the left with zeros to width 3. *)
Definition fmt_03i (n : nat) : string :=
  let s := decimal n in zeros (3 - String.length s) ++ s.

Definition startswith_sep (s : string) : bool :=
  match s with
  | String c _ => Ascii.eqb c "/"
  | EmptyString => false
  end.

Fixpoint endswith_sep (s : string) : bool :=
  match s with
  | EmptyString => false
  | String c EmptyString => Ascii.eqb c "/"
  | String _ s' => endswith_sep s'
  end.

(** [os.path.join(a, b)] (posixpath, two arguments). *)
Definition path_join (a b : string) : string :=
  if startswith_sep b then b
  else if orb (String.eqb a "") (endswith_sep a) then a ++ b
  else a ++ "/" ++ b.

(** Reading back what [fmt_03i] wrote: the digits of a name, leading zeros
    included, as a number. *)
Definition parse_index (s : string) : option nat :=
  option_map Nat.of_uint (DecimalString.NilEmpty.uint_of_string s).

Definition is_digit (c : ascii) : bool :=
  let n := nat_of_ascii c in andb (48 <=? n)%nat (n <=? 57)%nat.

Fixpoint all_digits (s : string) : bool :=
  match s with
  | EmptyString => true
  | String c s' => andb (is_digit c) (all_digits s')
  end.

(** The string is empty or starts with something that is not a digit. *)
Definition ends_number (s : string) : bool :=
  match s with
  | EmptyString => true
  | String c _ => negb (is_digit c)
  end.

(** What [path_join a] puts in front of a relative name. *)
Definition path_prefix (a : string) : string :=
  if orb (String.eqb a "") (endswith_sep a) then a else a ++ "/".

(** The endings of the names of a group's artifacts. *)
Definition artifact_suffixes : list string :=
  ["_xy_lines.png"; "_velocity.csv"; ".nc"; "_U_avg_n_sd.png";
   "_V_avg_n_sd.png"; "_W_avg_n_sd.png"; "_mean_velocity.png";
   "_secondary_circulation.png"; "_UVW_velocity.png";
   "_Flow_Summary.png"]%string.

(** ** The options block (lines 26-51) *)

Record Options : Type := {
  avg_dxy : float;
  avg_dz : float;
  avg_max_gap_m : float;
  avg_max_gap_minutes : float;
  avg_max_group_size : Z;
  avg_rotation : option string;
  avg_std_drop : float;
  avg_std_interp : bool;
  avg_smooth_kernel : Z;
  avg_save_netcdf : bool;
  avg_save_csv : bool;
  avg_plot_xy : bool;
  avg_plot_avg_n_sd : bool;
  avg_plot_mean_vectors : bool;
  avg_plot_secondary_circulation : bool;
  avg_plot_UVW_velocity_array : bool;
  avg_plot_flow_summmary : bool;
  avg_save_plots : bool;
  avg_show_plots : bool
}.

(** The values the script ships with. *)
Definition default_options : Options := {|
  avg_dxy := 2.0%float;
  avg_dz := 0.25%float;
  avg_max_gap_m := 30.0%float;
  avg_max_gap_minutes := 20.0%float;
  avg_max_group_size := 6%Z;
  avg_rotation := Some "Rozovski";
  avg_std_drop := 3.0%float;
  avg_std_interp := true;
  avg_smooth_kernel := 5%Z;
  avg_save_netcdf := true;
  avg_save_csv := true;
  avg_plot_xy := true;
  avg_plot_avg_n_sd := true;
  avg_plot_mean_vectors := true;
  avg_plot_secondary_circulation := true;
  avg_plot_UVW_velocity_array := true;
  avg_plot_flow_summmary := true;
  avg_save_plots := true;
  avg_show_plots := false
|}.

(** The three arrays of an averaged field that [plot_avg_n_sd] slices. *)
Inductive Field : Type := Velocity | Velocity_n | Velocity_sd.

(** ** Collaborators and the driver *)

(** Objects owned by the collaborators: a pre-processed transect, an
    averaged field ([ADCP_Data] with [velocity_n] and [velocity_sd]), a
    matplotlib figure, a panel description, a numpy array, and the state of
    everything outside the driver (file system, matplotlib, numpy). *)
Class Domain : Type := {
  Transect : Type;
  Avg : Type;
  Fig : Type;
  Panel : Type;
  Arr : Type;
  World : Type
}.

Section Driver.


Context `{D : Domain}.

Definition Group : Type := list Transect.

(** Every call the driver makes outside itself, with its arguments. *)
Inductive Call : Type :=
| CPreprocessor (pre_process_input_file : option string)
| CPrint (text : string)
| CGroupBySpacetime (transects : list Transect)
    (max_gap_m max_gap_minutes : float) (max_group_size : Z)
| CPlotObsGroupXYLines (grp : Group) (title : string)
| CSavefig (path : string)
| CAverageTransects (grp : Group) (dxy dz : float) (return_ADCPy : bool)
| CTransectRotate (avg : Avg) (rotation : string)
| CSdDrop (avg : Avg) (sd : float) (sd_axis : string) (interp_holes : bool)
| CKernelSmooth (avg : Avg) (kernel_size : Z)
| CWriteCsvVelocity (avg : Avg) (path : string) (no_header : bool)
| CWriteNc (avg : Avg) (fname : string) (zlib : bool)
| CFindProjectionDistances (avg : Avg)
| CNanFloorMin (fld : Field) (avg : Avg) (uvw : PyVal) (inv : float)
| CNanCeilMax (fld : Field) (avg : Avg) (uvw : PyVal) (inv : float)
| CNanMax (fld : Field) (avg : Avg) (uvw : PyVal)
| CIPanel (fld : Field) (avg : Avg) (uvw : PyVal) (x : Arr)
    (minv maxv : float) (xlabel ylabel units : string)
    (use_pcolormesh : bool) (title : string)
| CPlotVerticalPanels (panels : list Panel)
| CPlotEnsembleMeanVectors (avg : Avg) (title : string)
| CPlotSecondaryCirculation (avg : Avg) (u_vecs v_vecs : Z) (title : string)
| CPlotUVWVelocityArray (avg : Avg) (title : string) (ures vres wres : float)
| CPlotFlowSummmary (avg : Avg) (title : string) (ures vres : float)
    (use_grid_flows : bool)
| CShow
| CCloseAll.

(** What each call returns when it does not raise. *)
Definition returns (c : Call) : Type :=
  match c with
  | CPreprocessor _ => (list Transect * string)%type
  | CGroupBySpacetime _ _ _ _ => list Group
  | CAverageTransects _ _ _ _ | CTransectRotate _ _
  | CSdDrop _ _ _ _ | CKernelSmooth _ _ => Avg
  | CFindProjectionDistances _ => Arr
  | CNanFloorMin _ _ _ _ | CNanCeilMax _ _ _ _ | CNanMax _ _ _ => float
  | CIPanel _ _ _ _ _ _ _ _ _ _ _ => Panel
  | CPlotObsGroupXYLines _ _ | CPlotVerticalPanels _
  | CPlotEnsembleMeanVectors _ _ | CPlotSecondaryCirculation _ _ _ _
  | CPlotUVWVelocityArray _ _ _ _ _ | CPlotFlowSummmary _ _ _ _ _ => Fig
  | CPrint _ | CSavefig _ | CWriteCsvVelocity _ _ _ | CWriteNc _ _ _
  | CShow | CCloseAll => unit
  end.

(** The collaborators: each call changes the world and returns or raises.
    [sd_drop] and [kernel_smooth] work in place; the field they return is
    the state of the one object the driver holds afterwards. *)
Definition Collaborators : Type :=
  forall c : Call, World -> World * result (returns c).

(** One entry of the call log: the call and what came back. *)
Record Event : Type := Ev { ev_call : Call; ev_result : result (returns ev_call) }.

(** The outcome of running a piece of the driver. *)
Record Run (A : Type) : Type := MkRun {
  final : World;
  events : list Event;
  outcome : result A
}.
Arguments MkRun {A}.
Arguments final {A}.
Arguments events {A}.
Arguments outcome {A}.

Definition M (A : Type) : Type := World -> Run A.

Definition ret {A} (a : A) : M A := fun w => MkRun w [] (Ok a).

Definition raise {A} (e : Exn) : M A := fun w => MkRun w [] (Raise e).

Definition bind {A B} (m : M A) (f : A -> M B) : M B :=
  fun w =>
    let r := m w in
    match outcome r with
    | Ok a =>
        let r' := f a (final r) in
        MkRun (final r') (events r ++ events r')%list (outcome r')
    | Raise e => MkRun (final r) (events r) (Raise e)
    end.

Variable env : Collaborators.

Definition invoke (c : Call) : M (returns c) :=
  fun w => let '(w', r) := env c w in MkRun w' [Ev c r] r.

(** [if b: body] *)
Definition when (b : bool) (body : M unit) : M unit :=
  if b then body else ret tt.

(** [for x in xs: body] *)
Fixpoint for_each {A} (xs : list A) (body : A -> M unit) : M unit :=
  match xs with
  | [] => ret tt
  | x :: xs' => bind (body x) (fun _ => for_each xs' body)
  end.

Notation "x <- m ;; k" := (bind m (fun x => k))
  (at level 61, m at next level, right associativity).
Notation "m ;; k" := (bind m (fun _ => k))
  (at level 61, right associativity).

(** *** The collaborators under their Python names *)

Definition DWR_transect_preprocessor (pre_process_input_file : option string)
  : M (list Transect * string) :=
  invoke (CPreprocessor pre_process_input_file).

Definition print (text : string) : M unit := invoke (CPrint text).

Definition group_adcp_obs_by_spacetime (transects : list Transect)
  (max_gap_m max_gap_minutes : float) (max_group_size : Z) : M (list Group) :=
  invoke (CGroupBySpacetime transects max_gap_m max_gap_minutes max_group_size).

Definition plot_obs_group_xy_lines (grp : Group) (title : string) : M Fig :=
  invoke (CPlotObsGroupXYLines grp title).

Definition savefig (path : string) : M unit := invoke (CSavefig path).

Definition average_transects (grp : Group) (dxy dz : float)
  (return_ADCPy : bool) : M Avg :=
  invoke (CAverageTransects grp dxy dz return_ADCPy).

Definition transect_rotate (avg : Avg) (rotation : string) : M Avg :=
  invoke (CTransectRotate avg rotation).

Definition sd_drop (avg : Avg) (sd : float) (sd_axis : string)
  (interp_holes : bool) : M Avg :=
  invoke (CSdDrop avg sd sd_axis interp_holes).

Definition kernel_smooth (avg : Avg) (kernel_size : Z) : M Avg :=
  invoke (CKernelSmooth avg kernel_size).

Definition write_csv_velocity (avg : Avg) (path : string) (no_header : bool)
  : M unit :=
  invoke (CWriteCsvVelocity avg path no_header).

Definition write_nc (avg : Avg) (fname : string) (zlib : bool) : M unit :=
  invoke (CWriteNc avg fname zlib).

Definition find_projection_distances (avg : Avg) : M Arr :=
  invoke (CFindProjectionDistances avg).

(** [np.nanmin(np.nanmin(np.floor(fld[...,uvw]*inv)))] *)
Definition nan_floor_min (fld : Field) (avg : Avg) (uvw : PyVal) (inv : float)
  : M float :=
  invoke (CNanFloorMin fld avg uvw inv).

(** [np.nanmax(np.nanmax(np.ceil(fld[...,uvw]*inv)))] *)
Definition nan_ceil_max (fld : Field) (avg : Avg) (uvw : PyVal) (inv : float)
  : M float :=
  invoke (CNanCeilMax fld avg uvw inv).

(** [np.nanmax(np.nanmax(fld[...,uvw]))] *)
Definition nan_max (fld : Field) (avg : Avg) (uvw : PyVal) : M float :=
  invoke (CNanMax fld avg uvw).

(** [ADCPy.plot.i_panel(velocity = fld[:,:,uvw], x = x,
    y = avg.bin_center_elevation, ...)] *)
Definition i_panel (fld : Field) (avg : Avg) (uvw : PyVal) (x : Arr)
  (minv maxv : float) (xlabel ylabel units : string) (use_pcolormesh : bool)
  (title : string) : M Panel :=
  invoke (CIPanel fld avg uvw x minv maxv xlabel ylabel units use_pcolormesh
            title).

Definition plot_vertical_panels (panels : list Panel) : M Fig :=
  invoke (CPlotVerticalPanels panels).

Definition plot_ensemble_mean_vectors (avg : Avg) (title : string) : M Fig :=
  invoke (CPlotEnsembleMeanVectors avg title).

Definition plot_secondary_circulation (avg : Avg) (u_vecs v_vecs : Z)
  (title : string) : M Fig :=
  invoke (CPlotSecondaryCirculation avg u_vecs v_vecs title).

Definition plot_UVW_velocity_array (avg : Avg) (title : string)
  (ures vres wres : float) : M Fig :=
  invoke (CPlotUVWVelocityArray avg title ures vres wres).

Definition plot_flow_summmary (avg : Avg) (title : string) (ures vres : float)
  (use_grid_flows : bool) : M Fig :=
  invoke (CPlotFlowSummmary avg title ures vres use_grid_flows).

Definition show : M unit := invoke CShow.

Definition close_all : M unit := invoke CCloseAll.

(** *** [plot_avg_n_sd] (lines 150-213) *)

(** Lines 164-169: the component label. *)
Definition v_str_of (uvw : PyVal) : string :=
  if py_eq_int uvw 0 then "U"
  else if py_eq_int uvw 1 then "V"
  else "W".

Definition plot_avg_n_sd (avg : Avg) (uvw : PyVal) (resolution : float)
  : M Fig :=
  let v_str := v_str_of uvw in
  inv <- (if PrimFloat.eqb resolution 0
          then raise "ZeroDivisionError"
          else ret (1 / resolution)%float) ;;
  dd <- find_projection_distances avg ;;
  mtest <- nan_floor_min Velocity avg uvw inv ;;
  let minv := (mtest * resolution)%float in
  mtest <- nan_ceil_max Velocity avg uvw inv ;;
  let maxv := (mtest * resolution)%float in
  avg_panel <- i_panel Velocity avg uvw dd minv maxv "m" "m" "m/s" true
                 (v_str ++ " Averaged Velocity [m/s]") ;;
  maxv <- nan_max Velocity_n avg uvw ;;
  n_panel <- i_panel Velocity_n avg uvw dd 0 maxv "m" "m" "number" true
               "n Samples" ;;
  mtest <- nan_floor_min Velocity_sd avg uvw inv ;;
  let minv := (mtest * resolution)%float in
  mtest <- nan_ceil_max Velocity_sd avg uvw inv ;;
  let maxv := (mtest * resolution)%float in
  sd_panel <- i_panel Velocity_sd avg uvw dd 0 maxv "m" "m" "m/s" true
                "Standard Deviation [m/s]" ;;
  plot_vertical_panels [avg_panel; n_panel; sd_panel].

(** *** [DWR_transect_average] (lines 64-147) *)

Variable opts : Options.

(** Lines 87-90: the survey-location plot of a group. *)
Definition plot_xy_step (outpath : string) (grp : Group) (grp_num : nat)
  : M unit :=
  when (avg_plot_xy opts)
    (fig1 <- plot_obs_group_xy_lines grp
               ("Group" ++ fmt_03i grp_num ++ " Source Observations") ;;
     when (avg_save_plots opts)
       (savefig (path_join outpath
                   ("group" ++ fmt_03i grp_num ++ "_xy_lines.png")))).

(** Lines 93-94. *)
Definition rotation_step (avg : Avg) : M Avg :=
  match avg_rotation opts with
  | Some rotation => transect_rotate avg rotation
  | None => ret avg
  end.

(** Lines 95-101. *)
Definition sd_drop_step (avg : Avg) : M Avg :=
  if (0 <? avg_std_drop opts)%float then
    avg <- sd_drop avg 3.0%float "elevation" (avg_std_interp opts) ;;
    sd_drop avg 3.0%float "ensemble" (avg_std_interp opts)
  else ret avg.

(** Lines 102-103. *)
Definition smooth_step (avg : Avg) : M Avg :=
  if (2 <? avg_smooth_kernel opts)%Z then kernel_smooth avg 3%Z
  else ret avg.

(** [uvw[i]] for the string [uvw]. *)
Definition str_index (s : string) (i : nat) : M string :=
  match String.get i s with
  | Some c => ret (String c EmptyString)
  | None => raise "IndexError"
  end.

(** Lines 105-144: hand the averaged field to the writers and plotters. *)
Definition output_step (outpath : string) (avg : Avg) (grp_num : nat)
  : M unit :=
  let group := "group" ++ fmt_03i grp_num in
  let Grp := "Group" ++ fmt_03i grp_num in
  when (avg_save_csv opts)
    (write_csv_velocity avg (path_join outpath (group ++ "_velocity.csv"))
       true) ;;
  when (avg_save_netcdf opts)
    (let fname := path_join outpath (group ++ ".nc") in
     write_nc avg fname true) ;;
  when (avg_plot_avg_n_sd opts)
    (let uvw := "UVW" in
     for_each [0; 1; 2]%nat (fun i =>
       plot_avg_n_sd avg (PyInt (Z.of_nat i)) 0.05%float ;;
       when (avg_save_plots opts)
         (c <- str_index uvw i ;;
          savefig (path_join outpath (group ++ "_" ++ c ++ "_avg_n_sd.png"))))) ;;
  when (avg_plot_mean_vectors opts)
    (fig3 <- plot_ensemble_mean_vectors avg
               (Grp ++ " Mean Velocity [m/s]") ;;
     when (avg_save_plots opts)
       (savefig (path_join outpath (group ++ "_mean_velocity.png")))) ;;
  when (avg_plot_secondary_circulation opts)
    (fig4 <- plot_secondary_circulation avg 30 30
               (Grp ++
                " Streamwise Velocity [m/s] and Cross-stream Vectors") ;;
     when (avg_save_plots opts)
       (savefig (path_join outpath (group ++ "_secondary_circulation.png")))) ;;
  when (avg_plot_UVW_velocity_array opts)
    (fig5 <- plot_UVW_velocity_array avg (Grp ++ " Velocity [m/s]")
               0.1%float 0.1%float 0.05%float ;;
     when (avg_save_plots opts)
       (savefig (path_join outpath (group ++ "_UVW_velocity.png")))) ;;
  when (avg_plot_flow_summmary opts)
    (fig6 <- plot_flow_summmary avg (Grp ++ " Streawise Summary")
               0.1%float 0.1%float true ;;
     when (avg_save_plots opts)
       (savefig (path_join outpath (group ++ "_Flow_Summary.png")))) ;;
  when (avg_show_plots opts) show ;;
  close_all.

(** Lines 87-144: the body of the loop over the groups. *)
Definition process_group (outpath : string) (grp : Group) (grp_num : nat)
  : M unit :=
  plot_xy_step outpath grp grp_num ;;
  avg <- average_transects grp (avg_dxy opts) (avg_dz opts) true ;;
  avg <- rotation_step avg ;;
  avg <- sd_drop_step avg ;;
  avg <- smooth_step avg ;;
  output_step outpath avg grp_num.

(** Lines 95-144: what the loop body does once the field is rotated. *)
Definition after_rotation (outpath : string) (grp_num : nat) (avg : Avg)
  : M unit :=
  avg <- sd_drop_step avg ;;
  avg <- smooth_step avg ;;
  output_step outpath avg grp_num.

(** Lines 102-144: what the loop body does once the rejection step is
    over. *)
Definition after_sd_drop (outpath : string) (grp_num : nat) (avg : Avg)
  : M unit :=
  avg <- smooth_step avg ;;
  output_step outpath avg grp_num.

(** Lines 85-145: [for grp in grps_to_average], with the counter [grp_num]
    incremented at the end of each iteration. *)
Fixpoint for_groups (outpath : string) (grps_to_average : list Group)
  (grp_num : nat) : M unit :=
  match grps_to_average with
  | [] => ret tt
  | grp :: rest =>
      process_group outpath grp grp_num ;;
      for_groups outpath rest (S grp_num)
  end.

Definition DWR_transect_average (pre_process_input_file : option string)
  : M unit :=
  r <- DWR_transect_preprocessor pre_process_input_file ;;
  let '(transects, outpath) := r in
  print ("total transects loaded: " ++ decimal (List.length transects)) ;;
  grps_to_average <- group_adcp_obs_by_spacetime transects
                       (avg_max_gap_m opts) (avg_max_gap_minutes opts)
                       (avg_max_group_size opts) ;;
  print ("total groups to average " ++
         decimal (List.length grps_to_average)) ;;
  for_groups outpath grps_to_average 0 ;;
  print "ADCP processing complete!".

End Driver.

Local Open Scope list_scope.

Notation "x <- m ;; k" := (bind m (fun x => k))
  (at level 61, m at next level, right associativity).
Notation "m ;; k" := (bind m (fun _ => k))
  (at level 61, right associativity).

Arguments MkRun {D A}.
Arguments final {D A}.
Arguments events {D A}.
Arguments outcome {D A}.

(** ** A concrete instance, for running the driver

    Transects are numbered; an averaged field is the list of the operations
    applied to it so far; the world counts the calls made. *)

#[export] Instance demo_domain : Domain := {|
  Transect := nat;
  Avg := list string;
  Fig := unit;
  Panel := unit;
  Arr := unit;
  World := nat
|}.

Definition demo_transects : list nat := [0; 1; 2]%nat.

Definition demo_groups : list (list nat) := [[0]; [1; 2]]%nat.

(** What each collaborator returns in the instance when it returns. *)
Definition demo_value (c : Call) : returns c :=
  match c as c0 return returns c0 with
  | CPreprocessor _ => (demo_transects, "out"%string)
  | CGroupBySpacetime _ _ _ _ => demo_groups
  | CAverageTransects _ _ _ _ => []
  | CTransectRotate avg rotation => avg ++ [("rotate " ++ rotation)%string]
  | CSdDrop avg _ sd_axis _ => avg ++ [("sd_drop " ++ sd_axis)%string]
  | CKernelSmooth avg _ => avg ++ ["kernel_smooth"%string]
  | CFindProjectionDistances _ => tt
  | CNanFloorMin _ _ _ _ => 0%float
  | CNanCeilMax _ _ _ _ => 1%float
  | CNanMax _ _ _ => 1%float
  | CIPanel _ _ _ _ _ _ _ _ _ _ _ => tt
  | CPlotObsGroupXYLines _ _ => tt
  | CPlotVerticalPanels _ => tt
  | CPlotEnsembleMeanVectors _ _ => tt
  | CPlotSecondaryCirculation _ _ _ _ => tt
  | CPlotUVWVelocityArray _ _ _ _ _ => tt
  | CPlotFlowSummmary _ _ _ _ _ => tt
  | CPrint _ => tt
  | CSavefig _ => tt
  | CWriteCsvVelocity _ _ _ => tt
  | CWriteNc _ _ _ => tt
  | CShow => tt
  | CCloseAll => tt
  end.

(** Collaborators that raise exactly where [fails] says so. *)
Definition demo_env (fails : Call -> option Exn) : Collaborators :=
  fun c w =>
    (S w, match fails c with
          | Some e => Raise e
          | None => Ok (demo_value c)
          end).

(** Collaborators that never raise. *)
Definition lenient_env : Collaborators := demo_env (fun _ => None).

(** Collaborators whose [average_transects] rejects a bin resolution that is
    not positive and a group whose grid is degenerate (here: a group of one
    transect). *)
Definition strict_fails (c : Call) : option Exn :=
  match c with
  | CAverageTransects grp dxy dz _ =>
      if orb (dxy <=? 0)%float (dz <=? 0)%float then Some "ValueError"%string
      else if (List.length grp <=? 1)%nat then Some "DegenerateGrid"%string
      else None
  | _ => None
  end.

Definition strict_env : Collaborators := demo_env strict_fails.

(** The calls of a log, without their outcomes. *)
Definition calls `{D : Domain} (t : list Event) : list Call :=
  map ev_call t.

(** The exception an entry of the log ended with, if any. *)
Definition ev_exn `{D : Domain} (e : Event) : option Exn :=
  exn_of (ev_result e).

(** *** Reading the log *)

Definition is_average `{D : Domain} (c : Call) : bool :=
  match c with CAverageTransects _ _ _ _ => true | _ => false end.


Definition is_sd_drop `{D : Domain} (c : Call) : bool :=
  match c with CSdDrop _ _ _ _ => true | _ => false end.

Definition is_smooth `{D : Domain} (c : Call) : bool :=
  match c with CKernelSmooth _ _ => true | _ => false end.

(** The entries of a log whose call satisfies [p]. *)
Definition select `{D : Domain} (p : Call -> bool) (t : list Event)
  : list Event :=
  filter (fun e => p (ev_call e)) t.

(** The place of a call in the pipeline of one group: averaging (0), the
    three refinement steps (1, 2, 3), the writers and plotters that receive
    the averaged field (4).  Calls that do not touch the field have none. *)
Definition stage_rank `{D : Domain} (c : Call) : option nat :=
  match c with
  | CAverageTransects _ _ _ _ => Some 0%nat
  | CTransectRotate _ _ => Some 1%nat
  | CSdDrop _ _ _ _ => Some 2%nat
  | CKernelSmooth _ _ => Some 3%nat
  | CWriteCsvVelocity _ _ _ | CWriteNc _ _ _
  | CFindProjectionDistances _
  | CNanFloorMin _ _ _ _ | CNanCeilMax _ _ _ _ | CNanMax _ _ _
  | CIPanel _ _ _ _ _ _ _ _ _ _ _
  | CPlotEnsembleMeanVectors _ _ | CPlotSecondaryCirculation _ _ _ _
  | CPlotUVWVelocityArray _ _ _ _ _ | CPlotFlowSummmary _ _ _ _ _ =>
      Some 4%nat
  | _ => None
  end.

Definition stages `{D : Domain} (t : list Event) : list nat :=
  flat_map (fun e => match stage_rank (ev_call e) with
                     | Some k => [k]
                     | None => []
                     end) t.

(** The file a call writes, if it writes one. *)
Definition artifact `{D : Domain} (c : Call) : option string :=
  match c with
  | CSavefig path => Some path
  | CWriteCsvVelocity _ path _ => Some path
  | CWriteNc _ fname _ => Some fname
  | _ => None
  end.

Definition artifacts `{D : Domain} (t : list Event) : list string :=
  flat_map (fun e => match artifact (ev_call e) with
                     | Some p => [p]
                     | None => []
                     end) t.




(** The thresholds passed to [sd_drop], in call order. *)
Definition sd_args `{D : Domain} (t : list Event) : list float :=
  flat_map (fun e => match ev_call e with
                     | CSdDrop _ sd _ _ => [sd]
                     | _ => []
                     end) t.

(** The kernel sizes passed to [kernel_smooth], in call order. *)
Definition kernel_args `{D : Domain} (t : list Event) : list Z :=
  flat_map (fun e => match ev_call e with
                     | CKernelSmooth _ kernel_size => [kernel_size]
                     | _ => []
                     end) t.

(** The threshold of an [sd_drop] call is the literal of line 96 and 99. *)
Definition sd_is_literal `{D : Domain} (e : Event) : Prop :=
  match ev_call e with
  | CSdDrop _ sd _ _ => sd = 3.0%float
  | _ => True
  end.

(** The size of a [kernel_smooth] call is the literal of line 103. *)
Definition kernel_is_literal `{D : Domain} (e : Event) : Prop :=
  match ev_call e with
  | CKernelSmooth _ kernel_size => kernel_size = 3%Z
  | _ => True
  end.



(** [p] is a name of group [n] under [outpath]: [group%03i] followed by
    one of the known endings. *)
Definition group_name (outpath : string) (n : nat) (p : string) : Prop :=
  exists sfx, In sfx artifact_suffixes /\
              p = path_join outpath (("group" ++ fmt_03i n) ++ sfx).

(** If the call of an entry writes a file, the file is named after group
    [n]. *)
Definition artifact_named `{D : Domain} (outpath : string) (n : nat)
  (e : Event) : Prop :=
  match artifact (ev_call e) with
  | Some p => group_name outpath n p
  | None => True
  end.

(** An averaging call receives the configured bin resolutions as they
    are. *)
Definition resolution_passed_on `{D : Domain} (opts : Options) (e : Event)
  : Prop :=
  match ev_call e with
  | CAverageTransects _ dxy dz return_ADCPy =>
      dxy = avg_dxy opts /\ dz = avg_dz opts /\ return_ADCPy = true
  | _ => True
  end.

(** A run that ends with an exception ends with the call that raised it. *)
Definition raised_by_last_call `{D : Domain} {A} (r : Run A) : Prop :=
  match outcome r with
  | Raise e => exists t c, events r = t ++ [Ev c (Raise e)]
  | Ok _ => True
  end.

(** [relays m]: [m] raises nothing of its own; it only lets through what a
    collaborator raised. *)
Definition relays `{D : Domain} {A} (m : M A) : Prop :=
  forall w, raised_by_last_call (m w).

(** Every group of [grps] has had its averaging attempted in the log. *)
Definition every_group_attempted `{D : Domain} (grps : list Group)
  (t : list Event) : Prop :=
  forall grp, In grp grps ->
    exists dxy dz b r, In (Ev (CAverageTransects grp dxy dz b) r) t.

(** [emits P m]: every entry [m] adds to the log satisfies [P]. *)
Definition emits `{D : Domain} {A} (P : Event -> Prop) (m : M A) : Prop :=
  forall w, Forall P (events (m w)).

(** A list of ranks that is sorted and lies between two bounds. *)
Definition ranked (lo hi : nat) (l : list nat) : Prop :=
  StronglySorted le l /\ Forall (fun k => lo <= k <= hi) l.

(** Options used in the examples. *)
Definition with_std_drop (o : Options) (v : float) : Options := {|
  avg_dxy := avg_dxy o;
  avg_dz := avg_dz o;
  avg_max_gap_m := avg_max_gap_m o;
  avg_max_gap_minutes := avg_max_gap_minutes o;
  avg_max_group_size := avg_max_group_size o;
  avg_rotation := avg_rotation o;
  avg_std_drop := v;
  avg_std_interp := avg_std_interp o;
  avg_smooth_kernel := avg_smooth_kernel o;
  avg_save_netcdf := avg_save_netcdf o;
  avg_save_csv := avg_save_csv o;
  avg_plot_xy := avg_plot_xy o;
  avg_plot_avg_n_sd := avg_plot_avg_n_sd o;
  avg_plot_mean_vectors := avg_plot_mean_vectors o;
  avg_plot_secondary_circulation := avg_plot_secondary_circulation o;
  avg_plot_UVW_velocity_array := avg_plot_UVW_velocity_array o;
  avg_plot_flow_summmary := avg_plot_flow_summmary o;
  avg_save_plots := avg_save_plots o;
  avg_show_plots := avg_show_plots o
|}.

Definition with_smooth_kernel (o : Options) (k : Z) : Options := {|
  avg_dxy := avg_dxy o;
  avg_dz := avg_dz o;
  avg_max_gap_m := avg_max_gap_m o;
  avg_max_gap_minutes := avg_max_gap_minutes o;
  avg_max_group_size := avg_max_group_size o;
  avg_rotation := avg_rotation o;
  avg_std_drop := avg_std_drop o;
  avg_std_interp := avg_std_interp o;
  avg_smooth_kernel := k;
  avg_save_netcdf := avg_save_netcdf o;
  avg_save_csv := avg_save_csv o;
  avg_plot_xy := avg_plot_xy o;
  avg_plot_avg_n_sd := avg_plot_avg_n_sd o;
  avg_plot_mean_vectors := avg_plot_mean_vectors o;
  avg_plot_secondary_circulation := avg_plot_secondary_circulation o;
  avg_plot_UVW_velocity_array := avg_plot_UVW_velocity_array o;
  avg_plot_flow_summmary := avg_plot_flow_summmary o;
  avg_save_plots := avg_save_plots o;
  avg_show_plots := avg_show_plots o
|}.

Definition with_dxy (o : Options) (v : float) : Options := {|
  avg_dxy := v;
  avg_dz := avg_dz o;
  avg_max_gap_m := avg_max_gap_m o;
  avg_max_gap_minutes := avg_max_gap_minutes o;
  avg_max_group_size := avg_max_group_size o;
  avg_rotation := avg_rotation o;
  avg_std_drop := avg_std_drop o;
  avg_std_interp := avg_std_interp o;
  avg_smooth_kernel := avg_smooth_kernel o;
  avg_save_netcdf := avg_save_netcdf o;
  avg_save_csv := avg_save_csv o;
  avg_plot_xy := avg_plot_xy o;
  avg_plot_avg_n_sd := avg_plot_avg_n_sd o;
  avg_plot_mean_vectors := avg_plot_mean_vectors o;
  avg_plot_secondary_circulation := avg_plot_secondary_circulation o;
  avg_plot_UVW_velocity_array := avg_plot_UVW_velocity_array o;
  avg_plot_flow_summmary := avg_plot_flow_summmary o;
  avg_save_plots := avg_save_plots o;
  avg_show_plots := avg_show_plots o
|}.

(** The option that switches a call on: a call of the log is allowed if the
    test guarding it in the driver holds. *)
Definition allowed `{D : Domain} (opts : Options) (c : Call) : bool :=
  match c with
  | CPlotObsGroupXYLines _ _ => avg_plot_xy opts
  | CSavefig _ => avg_save_plots opts
  | CTransectRotate _ rotation =>
      match avg_rotation opts with
      | Some r => String.eqb r rotation
      | None => false
      end
  | CSdDrop _ _ _ _ => (0 <? avg_std_drop opts)%float
  | CKernelSmooth _ _ => (2 <? avg_smooth_kernel opts)%Z
  | CWriteCsvVelocity _ _ _ => avg_save_csv opts
  | CWriteNc _ _ _ => avg_save_netcdf opts
  | CFindProjectionDistances _
  | CNanFloorMin _ _ _ _ | CNanCeilMax _ _ _ _ | CNanMax _ _ _
  | CIPanel _ _ _ _ _ _ _ _ _ _ _
  | CPlotVerticalPanels _ => avg_plot_avg_n_sd opts
  | CPlotEnsembleMeanVectors _ _ => avg_plot_mean_vectors opts
  | CPlotSecondaryCirculation _ _ _ _ => avg_plot_secondary_circulation opts
  | CPlotUVWVelocityArray _ _ _ _ _ => avg_plot_UVW_velocity_array opts
  | CPlotFlowSummmary _ _ _ _ _ => avg_plot_flow_summmary opts
  | CShow => avg_show_plots opts
  | _ => true
  end.

(** The files of a group, in the order the loop body writes them, each with
    the test under which it is written. *)
Definition artifact_plan (opts : Options) : list (bool * string) :=
  [(avg_plot_xy opts && avg_save_plots opts, "_xy_lines.png");
   (avg_save_csv opts, "_velocity.csv");
   (avg_save_netcdf opts, ".nc");
   (avg_plot_avg_n_sd opts && avg_save_plots opts, "_U_avg_n_sd.png");
   (avg_plot_avg_n_sd opts && avg_save_plots opts, "_V_avg_n_sd.png");
   (avg_plot_avg_n_sd opts && avg_save_plots opts, "_W_avg_n_sd.png");
   (avg_plot_mean_vectors opts && avg_save_plots opts, "_mean_velocity.png");
   (avg_plot_secondary_circulation opts && avg_save_plots opts,
    "_secondary_circulation.png");
   (avg_plot_UVW_velocity_array opts && avg_save_plots opts,
    "_UVW_velocity.png");
   (avg_plot_flow_summmary opts && avg_save_plots opts,
    "_Flow_Summary.png")]%string.

Definition enabled_suffixes (opts : Options) : list string :=
  map snd (filter fst (artifact_plan opts)).

(** The files group [n] is to write under [outpath], in order. *)
Definition expected_artifacts (opts : Options) (outpath : string) (n : nat)
  : list string :=
  map (fun sfx => path_join outpath (("group" ++ fmt_03i n) ++ sfx))
    (enabled_suffixes opts).

(** [writes m L]: if [m] returns, the files it wrote are [L], in order; if
    it raises, they are the first of [L]. *)
Definition writes `{D : Domain} {A} (m : M A) (L : list string) : Prop :=
  forall w,
    match outcome (m w) with
    | Ok _ => artifacts (events (m w)) = L
    | Raise _ => exists rest, L = artifacts (events (m w)) ++ rest
    end.

(** The averaged field a call is handed, if it is handed one. *)
Definition field_in `{D : Domain} (c : Call) : option Avg :=
  match c with
  | CTransectRotate avg _ | CSdDrop avg _ _ _ | CKernelSmooth avg _
  | CWriteCsvVelocity avg _ _ | CWriteNc avg _ _
  | CFindProjectionDistances avg
  | CNanFloorMin _ avg _ _ | CNanCeilMax _ avg _ _ | CNanMax _ avg _
  | CIPanel _ avg _ _ _ _ _ _ _ _ _
  | CPlotEnsembleMeanVectors avg _ | CPlotSecondaryCirculation avg _ _ _
  | CPlotUVWVelocityArray avg _ _ _ _ | CPlotFlowSummmary avg _ _ _ _ =>
      Some avg
  | _ => None
  end.

(** The field the driver holds after an entry of the log, given the one it
    held before: averaging and the three refinement steps replace it by what
    they return (by nothing if they raise), every other call leaves it. *)
Definition advance `{D : Domain} (cur : option Avg) (e : Event)
  : option Avg :=
  let held (r : result Avg) :=
    match r with Ok a => Some a | Raise _ => None end in
  match e with
  | Ev c r =>
      match c as c0 return result (returns c0) -> option Avg with
      | CAverageTransects _ _ _ _ => held
      | CTransectRotate _ _ => held
      | CSdDrop _ _ _ _ => held
      | CKernelSmooth _ _ => held
      | _ => fun _ => cur
      end r
  end.

Definition field_after `{D : Domain} (cur : option Avg) (t : list Event)
  : option Avg :=
  fold_left advance t cur.

(** Every call of the log that is handed a field is handed the one the
    driver holds at that point. *)
Fixpoint threaded `{D : Domain} (cur : option Avg) (t : list Event) : Prop :=
  match t with
  | [] => True
  | e :: t' =>
      match field_in (ev_call e) with
      | Some a => cur = Some a
      | None => True
      end /\ threaded (advance cur e) t'
  end.

(** [flows cur m Q]: started with the field [cur], [m] hands on the field
    it holds, and if it returns [a] the field held then satisfies [Q a]. *)
Definition flows `{D : Domain} {A} (cur : option Avg) (m : M A)
  (Q : A -> option Avg -> Prop) : Prop :=
  forall w,
    threaded cur (events (m w)) /\
    match outcome (m w) with
    | Ok a => Q a (field_after cur (events (m w)))
    | Raise _ => True
    end.

(** An entry that leaves the field alone and, if it is handed one, is
    handed [a]. *)
Definition reads `{D : Domain} (a : option Avg) (e : Event) : Prop :=
  (field_in (ev_call e) = None \/ field_in (ev_call e) = a) /\
  forall cur, advance cur e = cur.

(** The groups handed to [average_transects], in call order. *)
Definition averaged_groups `{D : Domain} (t : list Event) : list Group :=
  flat_map (fun e => match ev_call e with
                     | CAverageTransects grp _ _ _ => [grp]
                     | _ => []
                     end) t.

(** The groups an entry of the log delivered, if it is a grouping call that
    returned. *)
Definition grouping_result `{D : Domain} (e : Event) : option (list Group) :=
  match e with
  | Ev c r =>
      match c as c0 return result (returns c0) -> option (list Group) with
      | CGroupBySpacetime _ _ _ _ =>
          fun r => match r with Ok grps => Some grps | Raise _ => None end
      | _ => fun _ => None
      end r
  end.

(** The lists of groups the grouping calls of a log returned. *)
Definition groupings `{D : Domain} (t : list Event) : list (list Group) :=
  flat_map (fun e => match grouping_result e with
                     | Some grps => [grps]
                     | None => []
                     end) t.

Definition is_close_all `{D : Domain} (c : Call) : bool :=
  match c with CCloseAll => true | _ => false end.

(** [closes m]: if [m] returns, its last call is the one [plt.close('all')]
    it makes; if it raises, it made none, or the one it made is its last
    call and the one that raised. *)
Definition closes `{D : Domain} {A} (m : M A) : Prop :=
  forall w,
    match outcome (m w) with
    | Ok _ =>
        exists t, events (m w) = t ++ [Ev CCloseAll (Ok tt)] /\
                  select is_close_all t = []
    | Raise e =>
        select is_close_all (events (m w)) = [] \/
        exists t, events (m w) = t ++ [Ev CCloseAll (Raise e)] /\
                  select is_close_all t = []
    end.

(** What the preprocessor delivered, if the entry is its call and it
    returned. *)
Definition preprocessed `{D : Domain} (e : Event)
  : option (list Transect * string) :=
  match e with
  | Ev c r =>
      match c as c0
        return result (returns c0) -> option (list Transect * string) with
      | CPreprocessor _ =>
          fun r => match r with Ok x => Some x | Raise _ => None end
      | _ => fun _ => None
      end r
  end.

(** A grouping call is made on [transects] with the configured gaps and
    group size. *)
Definition grouping_follows `{D : Domain} (opts : Options)
  (transects : list Transect) (e : Event) : Prop :=
  match ev_call e with
  | CGroupBySpacetime ts max_gap_m max_gap_minutes max_group_size =>
      ts = transects /\ max_gap_m = avg_max_gap_m opts /\
      max_gap_minutes = avg_max_gap_minutes opts /\
      max_group_size = avg_max_group_size opts
  | _ => True
  end.

(** If the call of an entry writes a file, the file is named after some
    group, under [outpath]. *)
Definition artifact_under `{D : Domain} (outpath : string) (e : Event)
  : Prop :=
  match artifact (ev_call e) with
  | Some p => exists k, group_name outpath k p
  | None => True
  end.

Definition is_completion `{D : Domain} (c : Call) : bool :=
  match c with
  | CPrint text => String.eqb text "ADCP processing complete!"
  | _ => false
  end.

(** Whether the log holds the message that ends a run. *)
Definition announced `{D : Domain} (t : list Event) : bool :=
  existsb (fun e => is_completion (ev_call e)) t.

(** A refinement step as the driver applies it: what is done, without the
    field it is done to. *)
Inductive Step : Type :=
| SRotate (rotation : string)
| SSdDrop (sd_axis : string) (interp_holes : bool)
| SSmooth.

Definition step_of `{D : Domain} (c : Call) : option Step :=
  match c with
  | CTransectRotate _ rotation => Some (SRotate rotation)
  | CSdDrop _ _ sd_axis interp_holes => Some (SSdDrop sd_axis interp_holes)
  | CKernelSmooth _ _ => Some SSmooth
  | _ => None
  end.

(** The refinement steps of a log, in call order. *)
Definition steps `{D : Domain} (t : list Event) : list Step :=
  flat_map (fun e => match step_of (ev_call e) with
                     | Some s => [s]
                     | None => []
                     end) t.

(** The refinement steps the options enable, by the tests of lines 93, 95
    and 102, in the order of the loop body. *)
Definition enabled_steps (opts : Options) : list Step :=
  match avg_rotation opts with
  | Some rotation => [SRotate rotation]
  | None => []
  end ++
  (if (0 <? avg_std_drop opts)%float
   then [SSdDrop "elevation" (avg_std_interp opts);
         SSdDrop "ensemble" (avg_std_interp opts)]
   else []) ++
  (if (2 <? avg_smooth_kernel opts)%Z then [SSmooth] else []).

(** [performs m L]: if [m] returns, the refinement steps it applied are
    [L], in order; if it raises, they are the first of [L]. *)
Definition performs `{D : Domain} {A} (m : M A) (L : list Step) : Prop :=
  forall w,
    match outcome (m w) with
    | Ok _ => steps (events (m w)) = L
    | Raise _ => exists rest, L = steps (events (m w)) ++ rest
    end.

(** What a figure shows. *)
Inductive Shown : Type :=
| ShXY
| ShPanels (uvw : PyVal)
| ShMean
| ShSecondary
| ShUVW
| ShFlow.

(** The ending of the file name that announces a figure. *)
Definition ending_of (s : Shown) : string :=
  match s with
  | ShXY => "_xy_lines.png"
  | ShPanels uvw => "_" ++ v_str_of uvw ++ "_avg_n_sd.png"
  | ShMean => "_mean_velocity.png"
  | ShSecondary => "_secondary_circulation.png"
  | ShUVW => "_UVW_velocity.png"
  | ShFlow => "_Flow_Summary.png"
  end%string.

(** What the log tells about the figures: the component of the last
    velocity panel built, and what the figure made last shows. *)
Definition FigState : Type := (option PyVal * option Shown)%type.

(** The effect of a call on the figures: a velocity panel records its
    component, each plotting call makes the current figure,
    [plt.close('all')] leaves none. *)
Definition draw `{D : Domain} (st : FigState) (c : Call) : FigState :=
  match c with
  | CIPanel Velocity _ uvw _ _ _ _ _ _ _ _ => (Some uvw, snd st)
  | CPlotVerticalPanels _ => (None, option_map ShPanels (fst st))
  | CPlotObsGroupXYLines _ _ => (fst st, Some ShXY)
  | CPlotEnsembleMeanVectors _ _ => (fst st, Some ShMean)
  | CPlotSecondaryCirculation _ _ _ _ => (fst st, Some ShSecondary)
  | CPlotUVWVelocityArray _ _ _ _ _ => (fst st, Some ShUVW)
  | CPlotFlowSummmary _ _ _ _ _ => (fst st, Some ShFlow)
  | CCloseAll => (None, None)
  | _ => st
  end.


(** The [savefig] calls of a log, each with what the current figure shows
    when it is made. *)
Fixpoint saved `{D : Domain} (st : FigState) (t : list Event)
  : list (option Shown * string) :=
  match t with
  | [] => []
  | e :: t' =>
      match ev_call e with
      | CSavefig path => [(snd st, path)]
      | _ => []
      end ++ saved (draw st (ev_call e)) t'
  end.

(** A figure is saved under the name of group [n] that announces it. *)
Definition named_after_figure (outpath : string) (n : nat)
  (x : option Shown * string) : Prop :=
  exists s, fst x = Some s /\
            snd x = path_join outpath (("group" ++ fmt_03i n) ++ ending_of s).



(** ** Properties *)

(** *** Names *)

Example fmt_03i_0 : fmt_03i 0 = "000"%string.
Proof. reflexivity. Qed.

Example fmt_03i_42 : fmt_03i 42 = "042"%string.
Proof. reflexivity. Qed.

Example fmt_03i_1234 : fmt_03i 1234 = "1234"%string.
Proof. reflexivity. Qed.

Example path_join_relative_name :
  path_join "out" "group000.nc" = "out/group000.nc"%string.
Proof. reflexivity. Qed.

Example path_join_after_sep :
  path_join "out/" "group000.nc" = "out/group000.nc"%string.
Proof. reflexivity. Qed.

Example py_eq_int_float : py_eq_int (PyFloat 0%float) 0 = true.
Proof. reflexivity. Qed.

Example py_eq_int_str : py_eq_int (PyStr "U") 0 = false.
Proof. reflexivity. Qed.

Lemma append_assoc (a b c : string) :
  ((a ++ b) ++ c)%string = (a ++ b ++ c)%string.
Proof. induction a as [|x a IH]; simpl; [reflexivity|now rewrite IH]. Qed.

Lemma append_cancel_l (a x y : string) :
  (a ++ x)%string = (a ++ y)%string -> x = y.
Proof.
  induction a as [|c a IH]; simpl; [auto|]. intros H. injection H. exact IH.
Qed.

Lemma path_join_relative (a b : string) :
  startswith_sep b = false -> path_join a b = (path_prefix a ++ b)%string.
Proof.
  intros H. unfold path_join, path_prefix. rewrite H.
  destruct (String.eqb a "" || endswith_sep a); [reflexivity|].
  now rewrite append_assoc.
Qed.

Lemma path_join_inj (a x y : string) :
  startswith_sep x = false -> startswith_sep y = false ->
  path_join a x = path_join a y -> x = y.
Proof.
  intros Hx Hy. rewrite !path_join_relative by assumption.
  apply append_cancel_l.
Qed.

Lemma all_digits_zeros k : all_digits (zeros k) = true.
Proof. induction k; simpl; auto. Qed.

Lemma all_digits_app (a b : string) :
  all_digits (a ++ b) = all_digits a && all_digits b.
Proof.
  induction a as [|c a IH]; simpl; [reflexivity|].
  now rewrite IH, andb_assoc.
Qed.

Lemma all_digits_uint d :
  all_digits (DecimalString.NilEmpty.string_of_uint d) = true.
Proof. induction d; simpl; auto. Qed.

Lemma all_digits_fmt_03i n : all_digits (fmt_03i n) = true.
Proof.
  unfold fmt_03i, decimal.
  now rewrite all_digits_app, all_digits_zeros, all_digits_uint.
Qed.

(** A number is cut from what follows it in one way only. *)
Lemma digits_cut_unique (d1 d2 s1 s2 : string) :
  all_digits d1 = true -> all_digits d2 = true ->
  ends_number s1 = true -> ends_number s2 = true ->
  (d1 ++ s1)%string = (d2 ++ s2)%string -> d1 = d2.
Proof.
  revert d2. induction d1 as [|c d1 IH]; intros [|c' d2] H1 H2 E1 E2 H;
    simpl in *.
  - reflexivity.
  - subst s1. simpl in E1. apply andb_prop in H2 as [Hc _].
    rewrite Hc in E1. discriminate.
  - subst s2. simpl in E2. apply andb_prop in H1 as [Hc _].
    rewrite Hc in E2. discriminate.
  - injection H as -> H. f_equal.
    apply andb_prop in H1 as [_ H1]. apply andb_prop in H2 as [_ H2].
    now apply IH.
Qed.

Lemma uint_of_zeros k s :
  DecimalString.NilEmpty.uint_of_string (zeros k ++ s) =
  option_map (Nat.iter k Decimal.D0)
    (DecimalString.NilEmpty.uint_of_string s).
Proof.
  induction k as [|k IH]; simpl.
  - now destruct (DecimalString.NilEmpty.uint_of_string s).
  - rewrite IH. now destruct (DecimalString.NilEmpty.uint_of_string s).
Qed.

Lemma of_uint_zeros k d :
  Nat.of_uint (Nat.iter k Decimal.D0 d) = Nat.of_uint d.
Proof. induction k as [|k IH]; simpl; [reflexivity|exact IH]. Qed.

(** The index of a group can be read back from its formatted form. *)
Lemma parse_fmt_03i n : parse_index (fmt_03i n) = Some n.
Proof.
  unfold parse_index, fmt_03i, decimal.
  rewrite uint_of_zeros, DecimalString.NilEmpty.usu. simpl.
  now rewrite of_uint_zeros, DecimalNat.Unsigned.of_to.
Qed.

Lemma fmt_03i_inj n m : fmt_03i n = fmt_03i m -> n = m.
Proof.
  intros H. apply (f_equal parse_index) in H.
  rewrite !parse_fmt_03i in H. now injection H.
Qed.

Lemma artifact_suffix_ends_number sfx :
  In sfx artifact_suffixes -> ends_number sfx = true.
Proof.
  unfold artifact_suffixes. simpl.
  intros H; repeat (destruct H as [<-|H]; [reflexivity|]); destruct H.
Qed.

(** Names of different groups differ, whatever their endings. *)
Lemma group_names_differ outpath n m s1 s2 :
  In s1 artifact_suffixes -> In s2 artifact_suffixes -> n <> m ->
  path_join outpath (("group" ++ fmt_03i n) ++ s1) <>
  path_join outpath (("group" ++ fmt_03i m) ++ s2).
Proof.
  intros H1 H2 Hnm H. apply path_join_inj in H; try reflexivity.
  simpl in H. injection H as H.
  apply digits_cut_unique in H;
    auto using all_digits_fmt_03i, artifact_suffix_ends_number.
  now apply fmt_03i_inj in H.
Qed.

Section Properties.

Context `{D : Domain}.
Variable env : Collaborators.

(** *** The monad *)

Lemma events_bind {A B} (m : M A) (f : A -> M B) (w : World) :
  events (bind m f w) =
  events (m w) ++ match outcome (m w) with
                  | Ok a => events (f a (final (m w)))
                  | Raise _ => []
                  end.
Proof.
  unfold bind. destruct (outcome (m w)); simpl; [reflexivity|].
  now rewrite app_nil_r.
Qed.

Lemma outcome_bind {A B} (m : M A) (f : A -> M B) (w : World) :
  outcome (bind m f w) =
  match outcome (m w) with
  | Ok a => outcome (f a (final (m w)))
  | Raise e => Raise e
  end.
Proof. unfold bind. destruct (outcome (m w)); reflexivity. Qed.

Lemma final_bind {A B} (m : M A) (f : A -> M B) (w : World) :
  final (bind m f w) =
  match outcome (m w) with
  | Ok a => final (f a (final (m w)))
  | Raise _ => final (m w)
  end.
Proof. unfold bind. destruct (outcome (m w)); reflexivity. Qed.

Lemma events_invoke (c : Call) (w : World) :
  events (invoke env c w) = [Ev c (outcome (invoke env c w))].
Proof. unfold invoke. destruct (env c w); reflexivity. Qed.

Lemma emits_ret {A} P (a : A) : emits P (ret a).
Proof. intro w. constructor. Qed.

Lemma emits_raise {A} P e : emits P (@raise _ A e).
Proof. intro w. constructor. Qed.

Lemma emits_bind {A B} P (m : M A) (f : A -> M B) :
  emits P m -> (forall a, emits P (f a)) -> emits P (bind m f).
Proof.
  intros Hm Hf w. rewrite events_bind. apply Forall_app. split; [apply Hm|].
  destruct (outcome (m w)); [apply Hf|constructor].
Qed.

Lemma emits_bind_ret {A B} P (a : A) (f : A -> M B) :
  emits P (f a) -> emits P (bind (ret a) f).
Proof.
  intros H w. rewrite events_bind. simpl. apply H.
Qed.

Lemma emits_invoke (P : Event -> Prop) c :
  (forall r, P (Ev c r)) -> emits P (invoke env c).
Proof. intros H w. rewrite events_invoke. constructor; [apply H|constructor]. Qed.

Lemma emits_when P b body : emits P body -> emits P (when b body).
Proof. intros H. destruct b; [exact H|apply emits_ret]. Qed.

Lemma emits_for_each {A} P (xs : list A) body :
  (forall x, emits P (body x)) -> emits P (for_each xs body).
Proof.
  intros H. induction xs as [|x xs IH]; simpl; [apply emits_ret|].
  apply emits_bind; [apply H|intros _; exact IH].
Qed.

Lemma emits_if {A} P (b : bool) (m1 m2 : M A) :
  emits P m1 -> emits P m2 -> emits P (if b then m1 else m2).
Proof. destruct b; auto. Qed.

Lemma emits_impl {A} (P Q : Event -> Prop) (m : M A) :
  (forall e, P e -> Q e) -> emits P m -> emits Q m.
Proof. intros H Hm w. eapply Forall_impl; [exact H|apply Hm]. Qed.

Lemma select_nil p (t : list Event) :
  Forall (fun e => p (ev_call e) = false) t -> select p t = [].
Proof.
  induction 1 as [|e t He _ IH]; [reflexivity|].
  unfold select in *. simpl. now rewrite He.
Qed.

Lemma select_app p (t1 t2 : list Event) :
  select p (t1 ++ t2) = select p t1 ++ select p t2.
Proof. apply filter_app. Qed.

Lemma select_cons p (e : Event) (t : list Event) :
  select p (e :: t) = if p (ev_call e) then e :: select p t else select p t.
Proof. reflexivity. Qed.

Lemma stages_app (t1 t2 : list Event) :
  stages (t1 ++ t2) = stages t1 ++ stages t2.
Proof. apply flat_map_app. Qed.

Lemma artifacts_app (t1 t2 : list Event) :
  artifacts (t1 ++ t2) = artifacts t1 ++ artifacts t2.
Proof. apply flat_map_app. Qed.

(** Unfold one step of the driver down to its calls. *)
Ltac unfold_driver :=
  unfold DWR_transect_average, process_group, plot_xy_step, rotation_step,
    sd_drop_step, smooth_step, output_step, plot_avg_n_sd, str_index,
    DWR_transect_preprocessor, print, group_adcp_obs_by_spacetime,
    plot_obs_group_xy_lines, savefig, average_transects, transect_rotate,
    sd_drop, kernel_smooth, write_csv_velocity, write_nc,
    find_projection_distances, nan_floor_min, nan_ceil_max, nan_max, i_panel,
    plot_vertical_panels, plot_ensemble_mean_vectors,
    plot_secondary_circulation, plot_UVW_velocity_array, plot_flow_summmary,
    show, close_all;
  cbn [for_each String.get Nat.eqb].

(** Reduce [emits P m] to [P] of each call [m] can make. *)
Ltac emits_calls :=
  repeat lazymatch goal with
    | |- emits _ (ret _) => apply emits_ret
    | |- emits _ (raise _) => apply emits_raise
    | |- emits _ (when _ _) => apply emits_when
    | |- emits _ (bind (ret _) _) => apply emits_bind_ret
    | |- emits _ (bind _ _) => apply emits_bind; [|intro]
    | |- emits ?P (invoke _ ?c) => apply (emits_invoke P c); intro
    | |- emits _ (if _ then _ else _) => apply emits_if
    | |- emits _ (match ?x with _ => _ end) => destruct x
    end.

(** Split on the outcome a goal branches on. *)
Ltac destruct_outcome :=
  match goal with
  | |- context [match outcome ?r with _ => _ end] =>
      let E := fresh "E" in destruct (outcome r) eqn:E
  end.

Variable opts : Options.

Lemma emits_process_group P outpath grp grp_num :
  emits P (plot_xy_step env opts outpath grp grp_num) ->
  (forall r, P (Ev (CAverageTransects grp (avg_dxy opts) (avg_dz opts) true) r)) ->
  (forall avg, emits P (rotation_step env opts avg)) ->
  (forall avg, emits P (sd_drop_step env opts avg)) ->
  (forall avg, emits P (smooth_step env opts avg)) ->
  (forall avg, emits P (output_step env opts outpath avg grp_num)) ->
  emits P (process_group env opts outpath grp grp_num).
Proof.
  intros Hxy Havg Hrot Hsd Hsm Hout. unfold process_group.
  apply emits_bind; [exact Hxy|intros _].
  apply emits_bind; [apply (emits_invoke P (CAverageTransects _ _ _ _)), Havg|intro].
  apply emits_bind; [apply Hrot|intro].
  apply emits_bind; [apply Hsd|intro].
  apply emits_bind; [apply Hsm|intro]. apply Hout.
Qed.

Lemma emits_for_groups P outpath grps grp_num :
  (forall grp n, emits P (process_group env opts outpath grp n)) ->
  emits P (for_groups env opts outpath grps grp_num).
Proof.
  intros H. revert grp_num.
  induction grps as [|grp rest IH]; intro n; simpl; [apply emits_ret|].
  apply emits_bind; [apply H|intros _; apply IH].
Qed.

(** Whatever holds of the two prints around the loop, of the two calls
    before it and of every entry a group adds, holds of the whole log. *)
Lemma emits_DWR_transect_average (P : Event -> Prop) file :
  (forall c r, match c with
               | CPreprocessor _ | CPrint _ | CGroupBySpacetime _ _ _ _ =>
                   P (Ev c r)
               | _ => True
               end) ->
  (forall outpath grp n, emits P (process_group env opts outpath grp n)) ->
  emits P (DWR_transect_average env opts file).
Proof.
  intros Hc Hg. unfold_driver.
  apply emits_bind; [apply (emits_invoke P (CPreprocessor _)); intro r;
                     apply (Hc (CPreprocessor _))|].
  intros [transects outpath].
  apply emits_bind;
    [apply (emits_invoke P (CPrint _)); intro r; apply (Hc (CPrint _))|intros _].
  apply emits_bind;
    [apply (emits_invoke P (CGroupBySpacetime _ _ _ _)); intro r;
     apply (Hc (CGroupBySpacetime _ _ _ _))|].
  intros grps.
  apply emits_bind;
    [apply (emits_invoke P (CPrint _)); intro r; apply (Hc (CPrint _))|intros _].
  apply emits_bind; [apply emits_for_groups, Hg|intros _].
  apply (emits_invoke P (CPrint _)); intro r; apply (Hc (CPrint _)).
Qed.

(** The steps around the refinement make no averaging or refinement call. *)
Lemma plot_xy_step_quiet outpath grp grp_num :
  emits (fun e => stage_rank (ev_call e) = None)
    (plot_xy_step env opts outpath grp grp_num).
Proof. unfold_driver. emits_calls; reflexivity. Qed.

Lemma output_step_rank outpath avg grp_num :
  emits (fun e => stage_rank (ev_call e) = Some 4%nat \/
                  stage_rank (ev_call e) = None)
    (output_step env opts outpath avg grp_num).
Proof. unfold_driver. emits_calls; simpl; auto. Qed.

(** *** The order of the refinement steps *)

Lemma ranked_nil lo hi : ranked lo hi [].
Proof. split; constructor. Qed.

Lemma ranked_app a b c d l1 l2 :
  ranked a b l1 -> ranked c d l2 -> b <= c -> a <= c -> b <= d ->
  ranked a d (l1 ++ l2).
Proof.
  intros [S1 B1] [S2 B2] Hbc Hac Hbd. split.
  - induction S1 as [|x l1 S1 IH Hx]; simpl; [exact S2|].
    inversion B1 as [|? ? Bx B1']; subst. constructor; [now apply IH|].
    apply Forall_app. split; [exact Hx|].
    eapply Forall_impl; [|exact B2]. simpl. intros; lia.
  - apply Forall_app. split; (eapply Forall_impl; [|eassumption]);
      simpl; intros; lia.
Qed.

Lemma ranked_const r (l : list nat) :
  Forall (fun k => k = r) l -> ranked r r l.
Proof.
  intros H. split.
  - induction H as [|x l Hx H IH]; constructor; [exact IH|].
    subst. eapply Forall_impl; [|exact H]. simpl. intros; lia.
  - eapply Forall_impl; [|exact H]. simpl. intros; lia.
Qed.

Lemma stages_const r (t : list Event) :
  Forall (fun e => stage_rank (ev_call e) = Some r \/
                   stage_rank (ev_call e) = None) t ->
  Forall (fun k => k = r) (stages t).
Proof.
  induction 1 as [|e t He _ IH]; [constructor|].
  unfold stages in *. simpl.
  destruct He as [-> | ->]; simpl; [constructor; [reflexivity|exact IH]|exact IH].
Qed.

Lemma emits_ranked {A} r (m : M A) :
  emits (fun e => stage_rank (ev_call e) = Some r \/
                  stage_rank (ev_call e) = None) m ->
  forall w, ranked r r (stages (events (m w))).
Proof. intros H w. apply ranked_const, stages_const, H. Qed.

Lemma ranked_bind {A B} a b c d (m : M A) (f : A -> M B) w :
  ranked a b (stages (events (m w))) ->
  (forall x w', ranked c d (stages (events (f x w')))) ->
  b <= c -> a <= c -> b <= d ->
  ranked a d (stages (events (bind m f w))).
Proof.
  intros Hm Hf Hbc Hac Hbd. rewrite events_bind, stages_app.
  apply (ranked_app a b c d); auto.
  destruct (outcome (m w)); [apply Hf|apply ranked_nil].
Qed.

Lemma rotation_step_rank avg :
  emits (fun e => stage_rank (ev_call e) = Some 1%nat \/
                  stage_rank (ev_call e) = None)
    (rotation_step env opts avg).
Proof. unfold_driver. emits_calls; simpl; auto. Qed.

Lemma sd_drop_step_rank avg :
  emits (fun e => stage_rank (ev_call e) = Some 2%nat \/
                  stage_rank (ev_call e) = None)
    (sd_drop_step env opts avg).
Proof. unfold_driver. emits_calls; simpl; auto. Qed.

Lemma smooth_step_rank avg :
  emits (fun e => stage_rank (ev_call e) = Some 3%nat \/
                  stage_rank (ev_call e) = None)
    (smooth_step env opts avg).
Proof. unfold_driver. emits_calls; simpl; auto. Qed.

Lemma process_group_ranked outpath grp grp_num w :
  ranked 0 4 (stages (events (process_group env opts outpath grp grp_num w))).
Proof.
  unfold process_group.
  eapply (ranked_bind 0 0 0 4); try lia.
  { apply emits_ranked. eapply emits_impl; [|apply plot_xy_step_quiet].
    simpl; auto. }
  intros _ w1. eapply (ranked_bind 0 0 1 4); try lia.
  { apply emits_ranked. unfold_driver. emits_calls; simpl; auto. }
  intros a1 w2. eapply (ranked_bind 1 1 2 4); try lia.
  { apply emits_ranked, rotation_step_rank. }
  intros a2 w3. eapply (ranked_bind 2 2 3 4); try lia.
  { apply emits_ranked, sd_drop_step_rank. }
  intros a3 w4. eapply (ranked_bind 3 3 4 4); try lia.
  { apply emits_ranked, smooth_step_rank. }
  intros a4 w5. apply emits_ranked, output_step_rank.
Qed.

(** *** Smoothing *)

(** C9: with a configured kernel size of at most 1 the smoothing stage does
    nothing: no call is made, the world is unchanged and the stage returns
    the field it was given. *)
Theorem C9_small_kernel_no_smoothing avg w :
  (avg_smooth_kernel opts <= 1)%Z ->
  smooth_step env opts avg w = MkRun w [] (Ok avg).
Proof.
  intros H. unfold smooth_step.
  destruct (Z.ltb_spec 2 (avg_smooth_kernel opts)); [lia|reflexivity].
Qed.

(** *** Rotation *)

Lemma select_bind {A B} p (m : M A) (f : A -> M B) w :
  select p (events (bind m f w)) =
  select p (events (m w)) ++
  match outcome (m w) with
  | Ok a => select p (events (f a (final (m w))))
  | Raise _ => []
  end.
Proof.
  rewrite events_bind, select_app. now destruct (outcome (m w)).
Qed.




Lemma after_sd_drop_emits (P : Event -> Prop) outpath grp_num avg :
  (forall e, stage_rank (ev_call e) = Some 3%nat \/
             stage_rank (ev_call e) = None -> P e) ->
  (forall e, stage_rank (ev_call e) = Some 4%nat \/
             stage_rank (ev_call e) = None -> P e) ->
  emits P (after_sd_drop env opts outpath grp_num avg).
Proof.
  intros H3 H4. unfold after_sd_drop. apply emits_bind.
  - eapply emits_impl; [exact H3|apply smooth_step_rank].
  - intro. eapply emits_impl; [exact H4|apply output_step_rank].
Qed.

Lemma after_rotation_emits (P : Event -> Prop) outpath grp_num avg :
  (forall e, stage_rank (ev_call e) = Some 2%nat \/
             stage_rank (ev_call e) = None -> P e) ->
  (forall e, stage_rank (ev_call e) = Some 3%nat \/
             stage_rank (ev_call e) = None -> P e) ->
  (forall e, stage_rank (ev_call e) = Some 4%nat \/
             stage_rank (ev_call e) = None -> P e) ->
  emits P (after_rotation env opts outpath grp_num avg).
Proof.
  intros H2 H3 H4. unfold after_rotation. apply emits_bind.
  - eapply emits_impl; [exact H2|apply sd_drop_step_rank].
  - intro. now apply after_sd_drop_emits.
Qed.

(** A call of rank other than [k] is not selected by a test that only
    accepts calls of rank [k]. *)
Lemma rank_excludes (p : Call -> bool) k r (e : Event) :
  (forall c, p c = true -> stage_rank c = Some k) -> k <> r ->
  stage_rank (ev_call e) = Some r \/ stage_rank (ev_call e) = None ->
  p (ev_call e) = false.
Proof.
  intros Hp Hk H. destruct (p (ev_call e)) eqn:E; [|reflexivity].
  apply Hp in E. destruct H as [H|H]; congruence.
Qed.

Lemma is_average_rank c : is_average c = true -> stage_rank c = Some 0%nat.
Proof. destruct c; simpl; congruence. Qed.


Lemma is_sd_drop_rank c : is_sd_drop c = true -> stage_rank c = Some 2%nat.
Proof. destruct c; simpl; congruence. Qed.

Lemma is_smooth_rank c : is_smooth c = true -> stage_rank c = Some 3%nat.
Proof. destruct c; simpl; congruence. Qed.

Lemma plot_xy_step_select p k outpath grp grp_num w :
  (forall c, p c = true -> stage_rank c = Some k) ->
  select p (events (plot_xy_step env opts outpath grp grp_num w)) = [].
Proof.
  intros Hp. apply select_nil.
  eapply Forall_impl; [|apply plot_xy_step_quiet]. simpl. intros e He.
  destruct (p (ev_call e)) eqn:E; [|reflexivity]. apply Hp in E. congruence.
Qed.


Lemma events_average_transects grp dxy dz b w :
  events (average_transects env grp dxy dz b w) =
  [Ev (CAverageTransects grp dxy dz b)
      (outcome (average_transects env grp dxy dz b w))].
Proof. apply (events_invoke (CAverageTransects _ _ _ _)). Qed.

(** The log of a group, cut after the averaging call. *)
Lemma process_group_events outpath grp grp_num w :
  let xy := plot_xy_step env opts outpath grp grp_num w in
  let c := CAverageTransects grp (avg_dxy opts) (avg_dz opts) true in
  events (process_group env opts outpath grp grp_num w) =
  events xy ++
  match outcome xy with
  | Raise _ => []
  | Ok _ =>
      let av := average_transects env grp (avg_dxy opts) (avg_dz opts) true
                  (final xy) in
      Ev c (outcome av) ::
      match outcome av with
      | Raise _ => []
      | Ok avg =>
          let rot := rotation_step env opts avg (final av) in
          events rot ++
          match outcome rot with
          | Raise _ => []
          | Ok avg' =>
              events (after_rotation env opts outpath grp_num avg' (final rot))
          end
      end
  end.
Proof.
  unfold process_group. cbv zeta. rewrite events_bind.
  destruct (outcome (plot_xy_step _ _ _ _ _ _)); [|reflexivity].
  f_equal. rewrite events_bind, events_average_transects.
  simpl. f_equal.
  destruct_outcome; [|reflexivity].
  rewrite events_bind. reflexivity.
Qed.



(** *** Standard-deviation rejection *)

Lemma step_select {A} (p : Call -> bool) k r (m : M A) w :
  emits (fun e => stage_rank (ev_call e) = Some r \/
                  stage_rank (ev_call e) = None) m ->
  (forall c, p c = true -> stage_rank c = Some k) -> k <> r ->
  select p (events (m w)) = [].
Proof.
  intros Hm Hp Hk. apply select_nil.
  eapply Forall_impl; [|apply Hm]. intros e He.
  now apply (rank_excludes p k r).
Qed.

Lemma events_sd_drop avg sd sd_axis interp w :
  events (sd_drop env avg sd sd_axis interp w) =
  [Ev (CSdDrop avg sd sd_axis interp)
      (outcome (sd_drop env avg sd sd_axis interp w))].
Proof. apply (events_invoke (CSdDrop _ _ _ _)). Qed.

Lemma sd_drop_step_off avg w :
  (0 <? avg_std_drop opts)%float = false ->
  sd_drop_step env opts avg w = MkRun w [] (Ok avg).
Proof. intros H. unfold sd_drop_step. now rewrite H. Qed.

(** The rejection step when it is enabled: the elevation pass, then the
    ensemble pass on the field the first pass left. *)
Lemma sd_drop_step_on avg w :
  (0 <? avg_std_drop opts)%float = true ->
  let interp := avg_std_interp opts in
  let r1 := sd_drop env avg 3.0%float "elevation" interp w in
  events (sd_drop_step env opts avg w) =
    Ev (CSdDrop avg 3.0%float "elevation" interp) (outcome r1) ::
    match outcome r1 with
    | Ok avg' =>
        [Ev (CSdDrop avg' 3.0%float "ensemble" interp)
            (outcome (sd_drop env avg' 3.0%float "ensemble" interp
                        (final r1)))]
    | Raise _ => []
    end /\
  outcome (sd_drop_step env opts avg w) =
    match outcome r1 with
    | Ok avg' =>
        outcome (sd_drop env avg' 3.0%float "ensemble" interp (final r1))
    | Raise e => Raise e
    end.
Proof.
  intros H. cbv zeta. unfold sd_drop_step. rewrite H.
  rewrite events_bind, outcome_bind, events_sd_drop. simpl.
  split; [|reflexivity]. f_equal.
  destruct_outcome; [|reflexivity]. apply events_sd_drop.
Qed.

Lemma stages_le_const r b (t : list Event) :
  Forall (fun e => stage_rank (ev_call e) = Some r \/
                   stage_rank (ev_call e) = None) t ->
  r <= b -> Forall (fun k => k <= b) (stages t).
Proof.
  intros H Hr. apply stages_const in H.
  eapply Forall_impl; [|exact H]. simpl. intros; lia.
Qed.

(** C5: when the rejection is enabled, the log of a group shows it applied
    along the elevation axis first and then, on the field that pass left,
    along the ensemble axis, both times with the configured
    hole-interpolation flag; the second pass is missing only if the first
    raised, and both are missing only if the group was abandoned before the
    rejection step.  When the rejection is disabled there is no such call. *)
Theorem C5_sd_drop_two_axes outpath grp grp_num w :
  let run := process_group env opts outpath grp grp_num w in
  let interp := avg_std_interp opts in
  if (0 <? avg_std_drop opts)%float then
    (exists e, outcome run = Raise e /\
               select is_sd_drop (events run) = [] /\
               Forall (fun k => k <= 1) (stages (events run)))
    \/ (exists avg sd e,
          outcome run = Raise e /\
          select is_sd_drop (events run) =
            [Ev (CSdDrop avg sd "elevation" interp) (Raise e)])
    \/ (exists avg avg' sd sd' r,
          select is_sd_drop (events run) =
            [Ev (CSdDrop avg sd "elevation" interp) (Ok avg');
             Ev (CSdDrop avg' sd' "ensemble" interp) r])
  else select is_sd_drop (events run) = [].
Proof.
  cbv zeta.
  assert (Hxy : forall w0,
            select is_sd_drop
              (events (plot_xy_step env opts outpath grp grp_num w0)) = []).
  { intro. apply (plot_xy_step_select _ 2%nat), is_sd_drop_rank. }
  assert (Hrot : forall a w0,
            select is_sd_drop (events (rotation_step env opts a w0)) = []).
  { intros. apply (step_select _ 2%nat 1%nat);
      [apply rotation_step_rank|apply is_sd_drop_rank|lia]. }
  assert (Hrest : forall a w0,
            select is_sd_drop
              (events (after_sd_drop env opts outpath grp_num a w0)) = []).
  { intros. apply select_nil. apply after_sd_drop_emits;
      intros e He; apply (rank_excludes _ 2%nat _ e is_sd_drop_rank) in He;
      auto; lia. }
  assert (Sxy : forall w0,
            Forall (fun k => k <= 1)
              (stages (events (plot_xy_step env opts outpath grp grp_num w0)))).
  { intro. apply (stages_le_const 0); [|lia].
    eapply Forall_impl; [|apply plot_xy_step_quiet]. simpl; auto. }
  assert (Srot : forall a w0,
            Forall (fun k => k <= 1)
              (stages (events (rotation_step env opts a w0)))).
  { intros. apply (stages_le_const 1); [apply rotation_step_rank|lia]. }
  rewrite process_group_events. cbv zeta.
  change (process_group env opts outpath grp grp_num) with
    (plot_xy_step env opts outpath grp grp_num ;;
     avg <- average_transects env grp (avg_dxy opts) (avg_dz opts) true ;;
     avg <- rotation_step env opts avg ;;
     after_rotation env opts outpath grp_num avg).
  rewrite outcome_bind, select_app, stages_app, Hxy. simpl.
  destruct (0 <? avg_std_drop opts)%float eqn:Hon.
  - destruct_outcome.
    2:{ left. exists e. rewrite List.app_nil_r. auto. }
    rewrite outcome_bind, select_cons. simpl.
    destruct_outcome.
    2:{ left. exists e.
        split; [reflexivity|]. split; [reflexivity|].
        apply Forall_app. split; [apply Sxy|]. simpl. repeat constructor. }
    rename a0 into avg0.
    rewrite outcome_bind, select_app, Hrot. simpl.
    destruct_outcome.
    2:{ left. exists e. rewrite List.app_nil_r.
        split; [reflexivity|]. split; [reflexivity|].
        apply Forall_app. split; [apply Sxy|]. simpl.
        constructor; [lia|apply Srot]. }
    rename a0 into avg1. right.
    unfold after_rotation. fold (after_sd_drop env opts outpath grp_num).
    rewrite outcome_bind, select_bind.
    match goal with
    | |- context [sd_drop_step env opts avg1 ?w'] =>
        destruct (sd_drop_step_on avg1 w' Hon) as [Hev Hout]
    end.
    cbv zeta in Hev, Hout. rewrite Hev, Hout.
    rewrite select_cons. simpl.
    destruct (outcome (sd_drop env avg1 3.0%float "elevation" _ _))
      as [avg2|e] eqn:Esd.
    + right. rewrite select_cons. simpl.
      destruct_outcome; [rewrite Hrest|];
        (exists avg1, avg2, 3.0%float, 3.0%float; eexists; reflexivity).
    + left. exists avg1, 3.0%float, e. auto.
  - destruct_outcome; [|reflexivity].
    rewrite select_cons. simpl.
    destruct_outcome; [|reflexivity].
    rewrite select_app, Hrot. simpl.
    destruct_outcome; [|reflexivity].
    unfold after_rotation. fold (after_sd_drop env opts outpath grp_num).
    rewrite select_bind, sd_drop_step_off by exact Hon. simpl.
    apply Hrest.
Qed.

(** *** Arguments the driver fixes *)

Lemma process_group_sd_literal outpath grp grp_num :
  emits sd_is_literal (process_group env opts outpath grp grp_num).
Proof. unfold_driver. emits_calls; exact I || reflexivity. Qed.

Lemma process_group_kernel_literal outpath grp grp_num :
  emits kernel_is_literal (process_group env opts outpath grp grp_num).
Proof. unfold_driver. emits_calls; exact I || reflexivity. Qed.

(** Every [sd_drop] call of a run passes the threshold 3.0, whatever
    [avg_std_drop] is. *)
Lemma sd_drop_threshold_fixed file w :
  Forall sd_is_literal (events (DWR_transect_average env opts file w)).
Proof.
  apply emits_DWR_transect_average.
  - intros c r. destruct c; exact I.
  - apply process_group_sd_literal.
Qed.

(** Every [kernel_smooth] call of a run passes the size 3, whatever
    [avg_smooth_kernel] is. *)
Lemma kernel_size_fixed file w :
  Forall kernel_is_literal (events (DWR_transect_average env opts file w)).
Proof.
  apply emits_DWR_transect_average.
  - intros c r. destruct c; exact I.
  - apply process_group_kernel_literal.
Qed.

(** *** [plot_avg_n_sd] *)




(** *** Names of the artifacts *)

Lemma process_group_artifacts_named outpath grp grp_num :
  emits (artifact_named outpath grp_num)
    (process_group env opts outpath grp grp_num).
Proof.
  unfold_driver. emits_calls; try exact I;
    unfold artifact_named, group_name; simpl artifact;
    (eexists; split; [|reflexivity]); simpl;
    repeat first [left; reflexivity | right].
Qed.

Lemma artifacts_named outpath n (t : list Event) :
  Forall (artifact_named outpath n) t ->
  Forall (group_name outpath n) (artifacts t).
Proof.
  induction 1 as [|e t He _ IH]; [constructor|].
  unfold artifacts in *. simpl. unfold artifact_named in He.
  destruct (artifact (ev_call e)); simpl; [constructor|]; assumption.
Qed.

(** The log of the loop is the logs of the groups it reached, one after
    the other, the [k]-th under the number [grp_num + k]. *)
Lemma for_groups_segments outpath grps grp_num w :
  exists segs : list (list Event),
    events (for_groups env opts outpath grps grp_num w) = List.concat segs /\
    List.length segs <= List.length grps /\
    forall k seg, nth_error segs k = Some seg ->
      exists grp w', nth_error grps k = Some grp /\
        seg = events (process_group env opts outpath grp (grp_num + k) w').
Proof.
  revert grp_num w. induction grps as [|grp rest IH]; intros n w.
  - exists []. repeat split; auto. intros [|k] seg; discriminate.
  - simpl for_groups. rewrite events_bind.
    destruct_outcome.
    + destruct (IH (S n) (final (process_group env opts outpath grp n w)))
        as (segs & Hev & Hlen & Hseg).
      exists (events (process_group env opts outpath grp n w) :: segs).
      split; [simpl; now rewrite Hev|]. split; [simpl; lia|].
      intros [|k] seg Hk; simpl in Hk.
      * injection Hk as <-. exists grp, w. rewrite Nat.add_0_r. auto.
      * destruct (Hseg k seg Hk) as (g & w' & Hg & ->).
        exists g, w'. split; [exact Hg|].
        now replace (n + S k) with (S n + k) by lia.
    + exists [events (process_group env opts outpath grp n w)].
      split; [simpl; now rewrite !List.app_nil_r|]. split; [simpl; lia|].
      intros [|[|k]] seg Hk; simpl in Hk; try discriminate.
      injection Hk as <-. exists grp, w. rewrite Nat.add_0_r. auto.
Qed.

(** C7: the log of the loop splits into one segment per group reached, the
    [k]-th being the log of the [k]-th group processed under the number [k]
    (numbers run from 0 in processing order); every file written in that
    segment is named [group%03i] of [k] plus a fixed ending, and no file
    name of one segment occurs in another. *)
Theorem C7_artifact_names_unique outpath grps w :
  exists segs : list (list Event),
    events (for_groups env opts outpath grps 0 w) = List.concat segs /\
    List.length segs <= List.length grps /\
    (forall k seg, nth_error segs k = Some seg ->
       (exists grp w', nth_error grps k = Some grp /\
          seg = events (process_group env opts outpath grp k w')) /\
       Forall (group_name outpath k) (artifacts seg)) /\
    (forall k l seg_k seg_l p q,
       nth_error segs k = Some seg_k -> nth_error segs l = Some seg_l ->
       k <> l -> In p (artifacts seg_k) -> In q (artifacts seg_l) ->
       p <> q).
Proof.
  destruct (for_groups_segments outpath grps 0 w) as (segs & Hev & Hlen & Hseg).
  assert (Hnamed : forall k seg, nth_error segs k = Some seg ->
            Forall (group_name outpath k) (artifacts seg)).
  { intros k seg Hk. destruct (Hseg k seg Hk) as (g & w' & _ & ->).
    apply artifacts_named, process_group_artifacts_named. }
  exists segs. repeat split; auto.
  - intros k l seg_k seg_l p q Hk Hl Hkl Hp Hq.
    pose proof (Hnamed k seg_k Hk) as Nk. pose proof (Hnamed l seg_l Hl) as Nl.
    rewrite Forall_forall in Nk, Nl.
    destruct (Nk p Hp) as (s1 & Hs1 & ->).
    destruct (Nl q Hq) as (s2 & Hs2 & ->).
    now apply group_names_differ.
Qed.

(** *** Exceptions *)

Lemma relays_ret {A} (a : A) : relays (ret a).
Proof. intro w. exact I. Qed.

Lemma relays_invoke c : relays (invoke env c).
Proof.
  intro w. unfold raised_by_last_call. rewrite events_invoke.
  destruct (outcome (invoke env c w)) eqn:E; [exact I|].
  exists [], c. reflexivity.
Qed.

Lemma relays_bind {A B} (m : M A) (f : A -> M B) :
  relays m -> (forall a, relays (f a)) -> relays (bind m f).
Proof.
  intros Hm Hf w. specialize (Hm w). unfold raised_by_last_call in *.
  rewrite outcome_bind, events_bind.
  destruct (outcome (m w)) as [a|e].
  - specialize (Hf a (final (m w))). unfold raised_by_last_call in Hf.
    destruct (outcome (f a (final (m w)))) as [|e]; [exact I|].
    destruct Hf as (t & c & ->). exists (events (m w) ++ t), c.
    now rewrite List.app_assoc.
  - destruct Hm as (t & c & ->). exists t, c. now rewrite List.app_nil_r.
Qed.

Lemma relays_bind_ret {A B} (a : A) (f : A -> M B) :
  relays (f a) -> relays (bind (ret a) f).
Proof.
  intros H w. specialize (H w). unfold raised_by_last_call in *.
  now rewrite outcome_bind, events_bind.
Qed.

Lemma relays_when b body : relays body -> relays (when b body).
Proof. intros H. destruct b; [exact H|apply relays_ret]. Qed.

Lemma relays_if {A} (b : bool) (m1 m2 : M A) :
  relays m1 -> relays m2 -> relays (if b then m1 else m2).
Proof. destruct b; auto. Qed.

(** Reduce [relays m] along the structure of [m]. *)
Ltac relays_calls :=
  repeat lazymatch goal with
    | |- relays (ret _) => apply relays_ret
    | |- relays (when _ _) => apply relays_when
    | |- relays (bind (ret _) _) => apply relays_bind_ret
    | |- relays (bind _ _) => apply relays_bind; [|intro]
    | |- relays (invoke _ ?c) => apply (relays_invoke c)
    | |- relays (if PrimFloat.eqb ?a ?b then _ else _) =>
        let v := eval vm_compute in (PrimFloat.eqb a b) in
        change (PrimFloat.eqb a b) with v; cbv iota
    | |- relays (if _ then _ else _) => apply relays_if
    | |- relays (match ?x with _ => _ end) => destruct x
    end.

Lemma process_group_relays outpath grp grp_num :
  relays (process_group env opts outpath grp grp_num).
Proof. unfold_driver. relays_calls. Qed.

Lemma for_groups_relays outpath grps grp_num :
  relays (for_groups env opts outpath grps grp_num).
Proof.
  revert grp_num. induction grps as [|grp rest IH]; intro n; simpl.
  - apply relays_ret.
  - apply relays_bind; [apply process_group_relays|intros _; apply IH].
Qed.

Lemma DWR_transect_average_relays file :
  relays (DWR_transect_average env opts file).
Proof.
  unfold DWR_transect_average.
  apply relays_bind; [apply (relays_invoke (CPreprocessor _))|].
  intros [transects outpath].
  apply relays_bind; [apply (relays_invoke (CPrint _))|intros _].
  apply relays_bind; [apply (relays_invoke (CGroupBySpacetime _ _ _ _))|].
  intros grps.
  apply relays_bind; [apply (relays_invoke (CPrint _))|intros _].
  apply relays_bind; [apply for_groups_relays|intros _].
  apply (relays_invoke (CPrint _)).
Qed.

Lemma process_group_resolution outpath grp grp_num :
  emits (resolution_passed_on opts)
    (process_group env opts outpath grp grp_num).
Proof.
  unfold_driver. emits_calls; try exact I.
  unfold resolution_passed_on. simpl. auto.
Qed.

(** C8, as the code has it: the driver does not validate the options.
    Under every configuration a group is processed by first making its
    survey-location plot and then calling [average_transects]; every such
    call of a run receives the configured bin resolutions unchanged; and a
    run that ends with an exception ends with the collaborator call that
    raised it, the driver raising none of its own. *)
Theorem C8_options_not_validated file outpath grp grp_num w :
  let xy := plot_xy_step env opts outpath grp grp_num w in
  (exists rest,
     events (process_group env opts outpath grp grp_num w) =
     events xy ++
     match outcome xy with
     | Raise _ => []
     | Ok _ =>
         Ev (CAverageTransects grp (avg_dxy opts) (avg_dz opts) true)
            (outcome (average_transects env grp (avg_dxy opts) (avg_dz opts)
                        true (final xy))) :: rest
     end) /\
  Forall (resolution_passed_on opts)
    (events (DWR_transect_average env opts file w)) /\
  raised_by_last_call (DWR_transect_average env opts file w).
Proof.
  cbv zeta. split; [|split].
  - rewrite process_group_events. cbv zeta. eexists. reflexivity.
  - apply emits_DWR_transect_average.
    + intros c r. destruct c; exact I.
    + apply process_group_resolution.
  - apply DWR_transect_average_relays.
Qed.

(** C3, as the code has it: an exception raised while a group is processed
    is not caught.  If the groups before it were processed and the group
    raises, the loop ends there with that exception: its log is the log of
    the groups before followed by the log of the failing group, and nothing
    of the groups after it. *)
Theorem C3_group_failure_ends_loop outpath pre grp post grp_num w e :
  outcome (for_groups env opts outpath pre grp_num w) = Ok tt ->
  outcome (process_group env opts outpath grp (grp_num + List.length pre)
             (final (for_groups env opts outpath pre grp_num w))) = Raise e ->
  outcome (for_groups env opts outpath (pre ++ grp :: post) grp_num w) =
    Raise e /\
  events (for_groups env opts outpath (pre ++ grp :: post) grp_num w) =
    events (for_groups env opts outpath pre grp_num w) ++
    events (process_group env opts outpath grp (grp_num + List.length pre)
              (final (for_groups env opts outpath pre grp_num w))) /\
  final (for_groups env opts outpath (pre ++ grp :: post) grp_num w) =
    final (process_group env opts outpath grp (grp_num + List.length pre)
             (final (for_groups env opts outpath pre grp_num w))).
Proof.
  revert grp_num w.
  induction pre as [|g pre IH]; intros n w Hb Hf; simpl in *.
  - rewrite Nat.add_0_r in *.
    rewrite outcome_bind, events_bind, final_bind, Hf.
    now rewrite List.app_nil_r.
  - rewrite !outcome_bind, !events_bind, !final_bind in *.
    destruct (outcome (process_group env opts outpath g n w)) as [[]|e'];
      [|discriminate].
    replace (n + S (List.length pre)) with (S n + List.length pre) in *
      by lia.
    destruct (IH (S n) _ Hb Hf) as (Ho & He & Hw).
    rewrite Ho, He, Hw. now rewrite List.app_assoc.
Qed.

(** *** Options that are switched off *)

Lemma emits_when_on P b body :
  (b = true -> emits P body) -> emits P (when b body).
Proof. intros H. destruct b; [now apply H|apply emits_ret]. Qed.

Lemma emits_if_eq {A} P (b : bool) (m1 m2 : M A) :
  (b = true -> emits P m1) -> (b = false -> emits P m2) ->
  emits P (if b then m1 else m2).
Proof. destruct b; auto. Qed.

(** As [emits_calls], keeping the test under which each call is made. *)
Ltac emits_guarded :=
  repeat lazymatch goal with
    | |- emits _ (ret _) => apply emits_ret
    | |- emits _ (raise _) => apply emits_raise
    | |- emits _ (when _ _) => apply emits_when_on; intro
    | |- emits _ (bind (ret _) _) => apply emits_bind_ret
    | |- emits _ (bind _ _) => apply emits_bind; [|intro]
    | |- emits ?P (invoke _ ?c) => apply (emits_invoke P c); intro
    | |- emits _ (if _ then _ else _) => apply emits_if_eq; intro
    | |- emits _ (match ?x with _ => _ end) => destruct x eqn:?
    end.

Lemma process_group_allowed outpath grp grp_num :
  emits (fun e => allowed opts (ev_call e) = true)
    (process_group env opts outpath grp grp_num).
Proof.
  unfold_driver. emits_guarded; simpl; try assumption; try reflexivity.
  match goal with H : avg_rotation opts = Some _ |- _ => rewrite H end.
  apply String.eqb_refl.
Qed.

(** X1: a product that is switched off is never produced.  Every call in
    the log of a run is one its option enables: no plot of a kind whose
    toggle is off, no [savefig] unless [avg_save_plots], no CSV or NetCDF
    writer unless asked for, no [plt.show] unless [avg_show_plots], no
    rotation with a mode other than the configured one, no rejection unless
    [avg_std_drop > 0], no smoothing unless [avg_smooth_kernel > 2]. *)
Theorem X1_disabled_products_never_produced file w :
  Forall (fun e => allowed opts (ev_call e) = true)
    (events (DWR_transect_average env opts file w)).
Proof.
  apply emits_DWR_transect_average.
  - intros c r. destruct c; try exact I; reflexivity.
  - apply process_group_allowed.
Qed.

(** *** The files of a group *)

Lemma writes_ret {A} (a : A) : writes (ret a) [].
Proof. intro w. reflexivity. Qed.

Lemma writes_invoke c :
  writes (invoke env c)
    (match artifact c with Some p => [p] | None => [] end).
Proof.
  intro w. rewrite events_invoke. unfold artifacts. simpl.
  rewrite List.app_nil_r.
  destruct (outcome (invoke env c w)); [reflexivity|].
  exists []. now rewrite List.app_nil_r.
Qed.

Lemma writes_bind {A B} (m : M A) (f : A -> M B) L1 L2 :
  writes m L1 -> (forall a, writes (f a) L2) -> writes (bind m f) (L1 ++ L2).
Proof.
  intros Hm Hf w. specialize (Hm w).
  rewrite outcome_bind, events_bind, artifacts_app.
  destruct (outcome (m w)) as [a|e].
  - rewrite Hm. specialize (Hf a (final (m w))).
    destruct (outcome (f a (final (m w)))); [now rewrite Hf|].
    destruct Hf as [rest ->]. exists rest. now rewrite List.app_assoc.
  - destruct Hm as [rest ->]. exists (rest ++ L2).
    simpl. now rewrite List.app_nil_r, List.app_assoc.
Qed.

Lemma writes_bind_ret {A B} (a : A) (f : A -> M B) L :
  writes (f a) L -> writes (bind (ret a) f) L.
Proof.
  intros H w. specialize (H w). now rewrite outcome_bind, events_bind.
Qed.

Lemma writes_when b body L :
  writes body L -> writes (when b body) (if b then L else []).
Proof. intros H. destruct b; [exact H|apply writes_ret]. Qed.

Lemma writes_quiet {A} (m : M A) :
  emits (fun e => artifact (ev_call e) = None) m -> writes m [].
Proof.
  intros H w.
  assert (E : artifacts (events (m w)) = []).
  { specialize (H w). induction H as [|e t He _ IH]; [reflexivity|].
    unfold artifacts in *. simpl. now rewrite He. }
  rewrite E. destruct (outcome (m w)); [reflexivity|now exists []].
Qed.

Lemma writes_eq {A} (m : M A) L L' : writes m L -> L = L' -> writes m L'.
Proof. now intros H <-. Qed.

Lemma plot_avg_n_sd_quiet avg uvw resolution :
  emits (fun e => artifact (ev_call e) = None)
    (plot_avg_n_sd env avg uvw resolution).
Proof. unfold_driver. emits_calls; reflexivity. Qed.

Lemma refinement_quiet avg :
  emits (fun e => artifact (ev_call e) = None) (rotation_step env opts avg) /\
  emits (fun e => artifact (ev_call e) = None) (sd_drop_step env opts avg) /\
  emits (fun e => artifact (ev_call e) = None) (smooth_step env opts avg).
Proof. repeat split; unfold_driver; emits_calls; reflexivity. Qed.

(** Build the list of files of a piece of the driver along its structure. *)
Ltac writes_calls :=
  repeat lazymatch goal with
    | |- writes (ret _) _ => apply writes_ret
    | |- writes (when _ _) _ => apply writes_when
    | |- writes (bind (ret _) _) _ => apply writes_bind_ret
    | |- writes (bind _ _) _ => eapply writes_bind; [|intro]
    | |- writes (invoke _ ?c) _ =>
        eapply writes_eq; [apply (writes_invoke c)|cbn [artifact]; reflexivity]
    | |- writes (plot_avg_n_sd _ _ _ _) _ =>
        apply writes_quiet, plot_avg_n_sd_quiet
    | |- writes (rotation_step _ _ _) _ =>
        apply writes_quiet, refinement_quiet
    | |- writes (sd_drop_step _ _ _) _ =>
        apply writes_quiet, refinement_quiet
    | |- writes (smooth_step _ _ _) _ =>
        apply writes_quiet, refinement_quiet
    end.

Lemma process_group_writes outpath grp grp_num :
  writes (process_group env opts outpath grp grp_num)
    (expected_artifacts opts outpath grp_num).
Proof.
  eapply writes_eq.
  - unfold process_group, plot_xy_step, output_step, str_index,
      plot_obs_group_xy_lines, savefig, average_transects,
      write_csv_velocity, write_nc, plot_ensemble_mean_vectors,
      plot_secondary_circulation, plot_UVW_velocity_array,
      plot_flow_summmary, show, close_all.
    cbn [for_each String.get Nat.eqb]. writes_calls.
  - unfold expected_artifacts, enabled_suffixes, artifact_plan. simpl artifact.
    cbv beta iota.
    replace (if avg_show_plots opts then [] else []) with (@nil string)
      by now destruct (avg_show_plots opts).
    destruct (avg_plot_xy opts), (avg_save_plots opts), (avg_save_csv opts),
      (avg_save_netcdf opts), (avg_plot_avg_n_sd opts),
      (avg_plot_mean_vectors opts), (avg_plot_secondary_circulation opts),
      (avg_plot_UVW_velocity_array opts), (avg_plot_flow_summmary opts);
      reflexivity.
Qed.

(** X2: the files of a group.  A group that is processed to the end has
    written exactly the files whose options are on, in the order xy-lines
    plot, CSV, NetCDF, the U, V and W panels, mean vectors, secondary
    circulation, velocity array, flow summary, each named after the group;
    a group that raises has written the first of them. *)
Theorem X2_files_of_a_group outpath grp grp_num w :
  match outcome (process_group env opts outpath grp grp_num w) with
  | Ok _ =>
      artifacts (events (process_group env opts outpath grp grp_num w)) =
      expected_artifacts opts outpath grp_num
  | Raise _ =>
      exists rest,
        expected_artifacts opts outpath grp_num =
        artifacts (events (process_group env opts outpath grp grp_num w)) ++
        rest
  end.
Proof. apply process_group_writes. Qed.

(** *** No file is written twice *)

Lemma artifact_suffixes_NoDup : NoDup artifact_suffixes.
Proof.
  unfold artifact_suffixes.
  repeat (constructor; [simpl; intuition discriminate|]). constructor.
Qed.

Lemma NoDup_filter_snd {A B} (l : list (bool * B)) (f : bool * B -> A) :
  NoDup (map f l) -> NoDup (map f (filter fst l)).
Proof.
  induction l as [|[b x] l IH]; simpl; [auto|]. intros H.
  inversion H as [|? ? Hx Hl]; subst. destruct b; simpl; [|now apply IH].
  constructor; [|now apply IH]. intros Hin. apply Hx.
  apply in_map_iff in Hin as (y & <- & Hy). apply in_map_iff.
  exists y. split; [reflexivity|]. now apply filter_In in Hy.
Qed.

Lemma enabled_suffixes_NoDup : NoDup (enabled_suffixes opts).
Proof.
  unfold enabled_suffixes. apply NoDup_filter_snd.
  exact artifact_suffixes_NoDup.
Qed.

Lemma expected_artifacts_NoDup outpath n :
  NoDup (expected_artifacts opts outpath n).
Proof.
  unfold expected_artifacts.
  apply NoDup_map_NoDup_ForallPairs; [|apply enabled_suffixes_NoDup].
  intros x y _ _ H. apply path_join_inj in H; try reflexivity.
  now apply append_cancel_l in H.
Qed.

Lemma process_group_artifacts_NoDup outpath grp grp_num w :
  NoDup (artifacts (events (process_group env opts outpath grp grp_num w))).
Proof.
  pose proof (process_group_writes outpath grp grp_num w) as H.
  pose proof (expected_artifacts_NoDup outpath grp_num) as N.
  destruct (outcome (process_group env opts outpath grp grp_num w)).
  - now rewrite H.
  - destruct H as [rest H]. rewrite H in N.
    now apply NoDup_app_remove_r in N.
Qed.

Lemma for_groups_artifacts outpath grps grp_num w :
  NoDup (artifacts (events (for_groups env opts outpath grps grp_num w))) /\
  Forall (fun p => exists k, grp_num <= k /\ group_name outpath k p)
    (artifacts (events (for_groups env opts outpath grps grp_num w))).
Proof.
  revert grp_num w. induction grps as [|grp rest IH]; intros n w.
  - split; constructor.
  - simpl for_groups. rewrite events_bind, artifacts_app.
    pose proof (process_group_artifacts_NoDup outpath grp n w) as N1.
    pose proof (artifacts_named outpath n _
                  (process_group_artifacts_named outpath grp n w)) as G1.
    assert (G1' : Forall (fun p => exists k, n <= k /\ group_name outpath k p)
                    (artifacts
                       (events (process_group env opts outpath grp n w)))).
    { eapply Forall_impl; [|exact G1]. intros p Hp. exists n. auto. }
    destruct_outcome.
    + destruct (IH (S n) (final (process_group env opts outpath grp n w)))
        as [N2 G2].
      split.
      * apply NoDup_app; [exact N1|exact N2|]. intros p H1 H2.
        rewrite Forall_forall in G1, G2.
        destruct (G1 p H1) as (s1 & Hs1 & E1).
        destruct (G2 p H2) as (k & Hk & s2 & Hs2 & E2).
        rewrite E1 in E2. revert E2. apply group_names_differ; auto. lia.
      * apply Forall_app. split; [exact G1'|].
        eapply Forall_impl; [|exact G2].
        intros p (k & Hk & Hp). exists k. split; [lia|exact Hp].
    + simpl. rewrite List.app_nil_r. now split.
Qed.

Lemma events_preprocessor file w :
  events (DWR_transect_preprocessor env file w) =
  [Ev (CPreprocessor file) (outcome (DWR_transect_preprocessor env file w))].
Proof. apply (events_invoke (CPreprocessor _)). Qed.

Lemma events_print text w :
  events (print env text w) = [Ev (CPrint text) (outcome (print env text w))].
Proof. apply (events_invoke (CPrint _)). Qed.

Lemma events_grouping transects a b c w :
  events (group_adcp_obs_by_spacetime env transects a b c w) =
  [Ev (CGroupBySpacetime transects a b c)
      (outcome (group_adcp_obs_by_spacetime env transects a b c w))].
Proof. apply (events_invoke (CGroupBySpacetime _ _ _ _)). Qed.

(** The files of a run are the files of its loop. *)
Lemma run_artifacts file w :
  artifacts (events (DWR_transect_average env opts file w)) = [] \/
  exists outpath grps w',
    artifacts (events (DWR_transect_average env opts file w)) =
    artifacts (events (for_groups env opts outpath grps 0 w')).
Proof.
  unfold DWR_transect_average.
  rewrite events_bind, artifacts_app, events_preprocessor.
  destruct_outcome; [|now left]. destruct a as [transects outpath].
  rewrite events_bind, artifacts_app, events_print.
  destruct_outcome; [|now left].
  rewrite events_bind, artifacts_app, events_grouping.
  destruct_outcome; [|now left]. rename a0 into grps.
  rewrite events_bind, artifacts_app, events_print.
  destruct_outcome; [|now left].
  rewrite events_bind, artifacts_app.
  right. eexists outpath, grps, _. simpl.
  destruct_outcome.
  - rewrite events_print. simpl. now rewrite List.app_nil_r.
  - simpl. now rewrite List.app_nil_r.
Qed.

(** X3: no file is written twice.  In every run, under every
    configuration, the paths handed to [savefig], [write_csv_velocity] and
    [write_nc] are pairwise different, within a group and across groups, so
    no output overwrites another one of the same run. *)
Theorem X3_no_file_written_twice file w :
  NoDup (artifacts (events (DWR_transect_average env opts file w))).
Proof.
  destruct (run_artifacts file w) as [-> | (outpath & grps & w' & ->)].
  - constructor.
  - apply for_groups_artifacts.
Qed.

(** *** The field handed from step to step *)

Lemma threaded_app cur (t1 t2 : list Event) :
  threaded cur (t1 ++ t2) <->
  threaded cur t1 /\ threaded (field_after cur t1) t2.
Proof.
  revert cur. induction t1 as [|e t1 IH]; intro cur; simpl.
  - tauto.
  - rewrite IH. unfold field_after. simpl. tauto.
Qed.

Lemma field_after_app cur (t1 t2 : list Event) :
  field_after cur (t1 ++ t2) = field_after (field_after cur t1) t2.
Proof. apply fold_left_app. Qed.

Lemma flows_ret {A} cur (a : A) (Q : A -> option Avg -> Prop) :
  Q a cur -> flows cur (ret a) Q.
Proof. intros H w. simpl. auto. Qed.

Lemma flows_bind {A B} cur (m : M A) (f : A -> M B) Q R :
  flows cur m Q -> (forall a cur', Q a cur' -> flows cur' (f a) R) ->
  flows cur (bind m f) R.
Proof.
  intros Hm Hf w. destruct (Hm w) as [Tm Qm].
  rewrite events_bind, outcome_bind, threaded_app, field_after_app.
  destruct (outcome (m w)) as [a|e].
  - destruct (Hf a _ Qm (final (m w))) as [Tf Qf]. auto.
  - simpl. auto.
Qed.

Lemma flows_invoke cur c (Q : returns c -> option Avg -> Prop) :
  match field_in c with Some a => cur = Some a | None => True end ->
  (forall x, Q x (advance cur (Ev c (Ok x)))) ->
  flows cur (invoke env c) Q.
Proof.
  intros Hin HQ w. unfold invoke. destruct (env c w) as [w' [x|e]]; simpl.
  - split; [auto|apply HQ].
  - auto.
Qed.

Lemma flows_conseq {A} cur (m : M A) (Q R : A -> option Avg -> Prop) :
  flows cur m Q -> (forall a c, Q a c -> R a c) -> flows cur m R.
Proof.
  intros H HQ w. destruct (H w) as [T Qm]. split; [exact T|].
  destruct (outcome (m w)); auto.
Qed.

Lemma flows_reader {A} cur (m : M A) :
  emits (reads cur) m -> flows cur m (fun _ cur' => cur' = cur).
Proof.
  intros H w. specialize (H w).
  assert (G : threaded cur (events (m w)) /\
              field_after cur (events (m w)) = cur).
  { induction H as [|e t [Hin Hadv] _ [IHt IHf]]; [now split|].
    unfold field_after in *. simpl. rewrite Hadv. repeat split; auto.
    destruct Hin as [-> | ->]; [exact I|]. now destruct cur. }
  destruct G as [T F]. split; [exact T|]. now destruct (outcome (m w)).
Qed.

Lemma plot_xy_step_flows cur outpath grp grp_num :
  flows cur (plot_xy_step env opts outpath grp grp_num)
    (fun _ cur' => cur' = cur).
Proof.
  apply flows_reader. unfold_driver.
  emits_calls; (split; [now left|reflexivity]).
Qed.

Lemma output_step_flows outpath avg grp_num :
  flows (Some avg) (output_step env opts outpath avg grp_num)
    (fun _ cur' => cur' = Some avg).
Proof.
  apply flows_reader. unfold_driver.
  emits_calls; (split; [simpl; auto|reflexivity]).
Qed.

Lemma rotation_step_flows avg :
  flows (Some avg) (rotation_step env opts avg)
    (fun avg' cur' => cur' = Some avg').
Proof.
  unfold rotation_step. destruct (avg_rotation opts) as [rotation|].
  - apply (flows_invoke _ (CTransectRotate avg rotation)); simpl; auto.
  - now apply flows_ret.
Qed.

Lemma sd_drop_step_flows avg :
  flows (Some avg) (sd_drop_step env opts avg)
    (fun avg' cur' => cur' = Some avg').
Proof.
  unfold sd_drop_step. destruct (0 <? avg_std_drop opts)%float.
  - eapply flows_bind.
    + apply (flows_invoke _ (CSdDrop avg _ _ _)
               (fun avg' cur' => cur' = Some avg')); simpl; auto.
    + intros a cur' ->.
      apply (flows_invoke _ (CSdDrop a _ _ _)); simpl; auto.
  - now apply flows_ret.
Qed.

Lemma smooth_step_flows avg :
  flows (Some avg) (smooth_step env opts avg)
    (fun avg' cur' => cur' = Some avg').
Proof.
  unfold smooth_step. destruct (2 <? avg_smooth_kernel opts)%Z.
  - apply (flows_invoke _ (CKernelSmooth avg _)); simpl; auto.
  - now apply flows_ret.
Qed.

Lemma process_group_flows cur outpath grp grp_num :
  flows cur (process_group env opts outpath grp grp_num) (fun _ _ => True).
Proof.
  unfold process_group.
  eapply flows_bind; [apply plot_xy_step_flows|]. intros _ cur' ->.
  eapply flows_bind.
  { apply (flows_invoke _ (CAverageTransects grp _ _ _)
             (fun avg' cur' => cur' = Some avg')); simpl; auto. }
  intros a0 cur' ->.
  eapply flows_bind; [apply rotation_step_flows|]. intros a1 cur' ->.
  eapply flows_bind; [apply sd_drop_step_flows|]. intros a2 cur' ->.
  eapply flows_bind; [apply smooth_step_flows|]. intros a3 cur' ->.
  eapply flows_conseq; [apply output_step_flows|auto].
Qed.



(** *** Which groups are averaged *)

Lemma averaged_groups_app (t1 t2 : list Event) :
  averaged_groups (t1 ++ t2) = averaged_groups t1 ++ averaged_groups t2.
Proof. apply flat_map_app. Qed.

Lemma groupings_app (t1 t2 : list Event) :
  groupings (t1 ++ t2) = groupings t1 ++ groupings t2.
Proof. apply flat_map_app. Qed.

Lemma averaged_groups_nil (t : list Event) :
  Forall (fun e => is_average (ev_call e) = false) t ->
  averaged_groups t = [].
Proof.
  induction 1 as [|e t He _ IH]; [reflexivity|].
  unfold averaged_groups in *. simpl. rewrite IH.
  destruct (ev_call e); try reflexivity. discriminate.
Qed.

Lemma groupings_nil (t : list Event) :
  Forall (fun e => grouping_result e = None) t -> groupings t = [].
Proof.
  induction 1 as [|e t He _ IH]; [reflexivity|].
  unfold groupings in *. simpl. now rewrite He.
Qed.

Lemma process_group_no_grouping outpath grp grp_num :
  emits (fun e => grouping_result e = None)
    (process_group env opts outpath grp grp_num).
Proof. unfold_driver. emits_calls; reflexivity. Qed.

Lemma for_groups_no_grouping outpath grps grp_num w :
  groupings (events (for_groups env opts outpath grps grp_num w)) = [].
Proof.
  apply groupings_nil. apply emits_for_groups.
  intros. apply process_group_no_grouping.
Qed.

(** A group is handed to [average_transects] once, unless its
    survey-location plot raised. *)
Lemma process_group_averaged outpath grp grp_num w :
  match outcome (process_group env opts outpath grp grp_num w) with
  | Ok _ =>
      averaged_groups
        (events (process_group env opts outpath grp grp_num w)) = [grp]
  | Raise _ =>
      averaged_groups
        (events (process_group env opts outpath grp grp_num w)) = [grp] \/
      averaged_groups
        (events (process_group env opts outpath grp grp_num w)) = []
  end.
Proof.
  assert (Hxy : averaged_groups
                  (events (plot_xy_step env opts outpath grp grp_num w)) = []).
  { apply averaged_groups_nil.
    eapply Forall_impl; [|apply plot_xy_step_quiet]. simpl. intros e He.
    destruct (is_average (ev_call e)) eqn:E; [|reflexivity].
    apply is_average_rank in E. congruence. }
  assert (Hrot : forall a w0,
            averaged_groups (events (rotation_step env opts a w0)) = []).
  { intros. apply averaged_groups_nil.
    eapply Forall_impl; [|apply rotation_step_rank]. intros e He.
    apply (rank_excludes _ 0%nat 1%nat e is_average_rank); auto. }
  assert (Hrest : forall a w0,
            averaged_groups
              (events (after_rotation env opts outpath grp_num a w0)) = []).
  { intros. apply averaged_groups_nil. apply after_rotation_emits;
      intros e He; apply (rank_excludes _ 0%nat _ e is_average_rank) in He;
      auto; lia. }
  rewrite process_group_events. cbv zeta.
  change (process_group env opts outpath grp grp_num) with
    (plot_xy_step env opts outpath grp grp_num ;;
     avg <- average_transects env grp (avg_dxy opts) (avg_dz opts) true ;;
     avg <- rotation_step env opts avg ;;
     after_rotation env opts outpath grp_num avg).
  rewrite outcome_bind, averaged_groups_app, Hxy. simpl.
  destruct_outcome; [|now right].
  rewrite outcome_bind.
  change (averaged_groups (?e :: ?t)) with
    (averaged_groups [e] ++ averaged_groups t).
  simpl.
  destruct_outcome; [|now left].
  rewrite outcome_bind, averaged_groups_app, Hrot. simpl.
  destruct_outcome; [|now left].
  rewrite Hrest. now destruct_outcome; [|left].
Qed.

(** The groups averaged by the loop are the first of its groups, and all
    of them if it returns. *)
Lemma for_groups_averaged outpath grps grp_num w :
  exists rest,
    grps = averaged_groups
             (events (for_groups env opts outpath grps grp_num w)) ++ rest /\
    match outcome (for_groups env opts outpath grps grp_num w) with
    | Ok _ => rest = []
    | Raise _ => True
    end.
Proof.
  revert grp_num w. induction grps as [|grp more IH]; intros n w.
  - exists []. now split.
  - simpl for_groups. rewrite events_bind, outcome_bind, averaged_groups_app.
    pose proof (process_group_averaged outpath grp n w) as H.
    destruct (outcome (process_group env opts outpath grp n w)).
    + rewrite H.
      destruct (IH (S n) (final (process_group env opts outpath grp n w)))
        as (rest & E & Hr).
      exists rest. split; [simpl; now f_equal|exact Hr].
    + destruct H as [-> | ->]; simpl.
      * now exists more.
      * now exists (grp :: more).
Qed.

(** X5: the groups that are averaged.  In every run the grouping is asked
    at most once; the groups handed to [average_transects] are, in order
    and each once, the first of the groups it returned, and all of them if
    the run returns.  If no grouping returned, no group is averaged and the
    run has raised. *)
Theorem X5_groups_averaged_in_order file w :
  let run := DWR_transect_average env opts file w in
  match groupings (events run) with
  | [] => averaged_groups (events run) = [] /\
          exists e, outcome run = Raise e
  | [grps] =>
      exists rest,
        grps = averaged_groups (events run) ++ rest /\
        match outcome run with
        | Ok _ => rest = []
        | Raise _ => True
        end
  | _ => False
  end.
Proof.
  cbv zeta. unfold DWR_transect_average.
  rewrite events_bind, outcome_bind, events_preprocessor.
  rewrite groupings_app, averaged_groups_app. simpl.
  destruct_outcome; [|split; [reflexivity|eauto]].
  destruct a as [transects outpath].
  rewrite events_bind, outcome_bind, events_print.
  rewrite groupings_app, averaged_groups_app. simpl.
  destruct_outcome; [|split; [reflexivity|eauto]].
  rewrite events_bind, outcome_bind, events_grouping.
  rewrite groupings_app, averaged_groups_app.
  unfold groupings at 1. simpl.
  destruct_outcome; [|split; [reflexivity|eauto]].
  rename a0 into grps. simpl.
  rewrite events_bind, outcome_bind, events_print.
  rewrite groupings_app, averaged_groups_app. simpl.
  destruct_outcome.
  2:{ exists grps. now split. }
  rewrite events_bind, outcome_bind.
  rewrite groupings_app, averaged_groups_app, for_groups_no_grouping.
  match goal with
  | |- context [for_groups env opts outpath grps 0 ?w'] =>
      destruct (for_groups_averaged outpath grps 0 w') as (rest & Eg & Hr)
  end.
  simpl. destruct_outcome.
  - subst rest. rewrite events_print. simpl.
    exists []. rewrite !List.app_nil_r in *. split; [exact Eg|].
    now destruct_outcome.
  - simpl. exists rest. rewrite List.app_nil_r. now split.
Qed.

(** *** Closing the figures *)

Lemma events_close_all w :
  events (close_all env w) = [Ev CCloseAll (outcome (close_all env w))].
Proof. apply (events_invoke CCloseAll). Qed.

Lemma closes_close_all : closes (close_all env).
Proof.
  intro w. rewrite events_close_all.
  destruct (outcome (close_all env w)) as [[]|e].
  - now exists [].
  - right. now exists [].
Qed.

Lemma closes_bind_quiet {A B} (m : M A) (f : A -> M B) :
  emits (fun e => is_close_all (ev_call e) = false) m ->
  (forall a, closes (f a)) -> closes (bind m f).
Proof.
  intros Hm Hf w. pose proof (select_nil _ _ (Hm w)) as Q.
  rewrite outcome_bind, events_bind.
  destruct (outcome (m w)) as [a|e].
  - specialize (Hf a (final (m w))).
    destruct (outcome (f a (final (m w)))) as [b|e].
    + destruct Hf as (t & -> & Ht). exists (events (m w) ++ t).
      split; [now rewrite List.app_assoc|]. now rewrite select_app, Q, Ht.
    + destruct Hf as [Hf|(t & -> & Ht)].
      * left. now rewrite select_app, Q, Hf.
      * right. exists (events (m w) ++ t).
        split; [now rewrite List.app_assoc|]. now rewrite select_app, Q, Ht.
  - left. now rewrite List.app_nil_r.
Qed.

Lemma plot_avg_n_sd_no_close avg uvw resolution :
  emits (fun e => is_close_all (ev_call e) = false)
    (plot_avg_n_sd env avg uvw resolution).
Proof. unfold_driver. emits_calls; reflexivity. Qed.

Lemma output_step_closes outpath avg grp_num :
  closes (output_step env opts outpath avg grp_num).
Proof.
  unfold output_step.
  repeat (apply closes_bind_quiet;
          [unfold_driver; emits_calls; reflexivity|intros _]).
  apply closes_close_all.
Qed.

Lemma process_group_closes outpath grp grp_num :
  closes (process_group env opts outpath grp grp_num).
Proof.
  unfold process_group.
  do 5 (apply closes_bind_quiet;
        [unfold_driver; emits_calls; reflexivity|intro]).
  apply output_step_closes.
Qed.

(** X6: closing the figures.  A group that is processed to the end makes
    exactly one [plt.close('all')] call, and it is its last call.  A group
    that raises has not closed its figures: its log holds no such call,
    unless that call is the one that raised. *)
Theorem X6_figures_closed_at_end_of_group outpath grp grp_num w :
  match outcome (process_group env opts outpath grp grp_num w) with
  | Ok _ =>
      exists t,
        events (process_group env opts outpath grp grp_num w) =
        t ++ [Ev CCloseAll (Ok tt)] /\
        select is_close_all t = []
  | Raise e =>
      select is_close_all
        (events (process_group env opts outpath grp grp_num w)) = [] \/
      exists t,
        events (process_group env opts outpath grp grp_num w) =
        t ++ [Ev CCloseAll (Raise e)] /\
        select is_close_all t = []
  end.
Proof. apply process_group_closes. Qed.

(** *** Errors of [plot_avg_n_sd] *)

(** X7: [plot_avg_n_sd] with a resolution of zero raises
    [ZeroDivisionError] before any collaborator is called and leaves the
    world as it was; with any other resolution it raises nothing of its
    own: if it ends with an exception, its last call raised it. *)
Theorem X7_plot_avg_n_sd_errors avg uvw resolution w :
  if (resolution =? 0)%float
  then plot_avg_n_sd env avg uvw resolution w =
       MkRun w [] (Raise "ZeroDivisionError"%string)
  else raised_by_last_call (plot_avg_n_sd env avg uvw resolution w).
Proof.
  destruct (resolution =? 0)%float eqn:E.
  - unfold plot_avg_n_sd. rewrite E. reflexivity.
  - revert w. change (relays (plot_avg_n_sd env avg uvw resolution)).
    unfold_driver. rewrite E. relays_calls.
Qed.

(** *** What the preprocessor delivers *)

Lemma artifacts_under outpath (t : list Event) :
  Forall (artifact_under outpath) t ->
  Forall (fun p => exists k, group_name outpath k p) (artifacts t).
Proof.
  induction 1 as [|e t He _ IH]; [constructor|].
  unfold artifacts in *. simpl. unfold artifact_under in He.
  destruct (artifact (ev_call e)); simpl; [constructor|]; assumption.
Qed.

Lemma process_group_under outpath grp grp_num :
  emits (artifact_under outpath) (process_group env opts outpath grp grp_num).
Proof.
  eapply emits_impl; [|apply process_group_artifacts_named].
  unfold artifact_under, artifact_named. intros e He.
  destruct (artifact (ev_call e)); [now exists grp_num|exact I].
Qed.

Lemma process_group_grouping_follows transects outpath grp grp_num :
  emits (grouping_follows opts transects)
    (process_group env opts outpath grp grp_num).
Proof. unfold_driver. emits_calls; exact I. Qed.

(** X9: what the preprocessor delivers is what the run works on.  The
    first call of every run is the preprocessor, on the given input file.
    If it raises, nothing else is called.  If it returns transects and an
    output path, every grouping call of the run is made on exactly those
    transects with the configured gaps and group size, and every file of
    the run is written under that output path, named after a group. *)
Theorem X9_run_works_on_what_preprocessor_delivers file w :
  match events (DWR_transect_average env opts file w) with
  | [] => False
  | e :: rest =>
      ev_call e = CPreprocessor file /\
      match preprocessed e with
      | Some (transects, outpath) =>
          Forall (grouping_follows opts transects) rest /\
          Forall (fun p => exists k, group_name outpath k p) (artifacts rest)
      | None => rest = []
      end
  end.
Proof.
  unfold DWR_transect_average.
  rewrite events_bind, events_preprocessor. simpl.
  split; [reflexivity|].
  destruct_outcome; [|reflexivity]. destruct a as [transects outpath].
  match goal with
  | |- Forall _ (events (?m ?w')) /\ _ =>
      assert (H : emits (fun e => grouping_follows opts transects e /\
                                  artifact_under outpath e) m)
  end.
  { apply emits_bind; [apply (emits_invoke _ (CPrint _)); now split|].
    intros _. apply emits_bind.
    { apply (emits_invoke _ (CGroupBySpacetime _ _ _ _)). intro.
      split; [|exact I]. unfold grouping_follows. simpl. auto. }
    intros grps.
    apply emits_bind; [apply (emits_invoke _ (CPrint _)); now split|].
    intros _. apply emits_bind.
    { apply emits_for_groups. intros grp n w'. apply Forall_forall.
      intros e He. split.
      - pose proof (process_group_grouping_follows transects outpath grp n w')
          as G. rewrite Forall_forall in G. now apply G.
      - pose proof (process_group_under outpath grp n w') as G.
        rewrite Forall_forall in G. now apply G. }
    intros _. apply (emits_invoke _ (CPrint _)). now split. }
  match goal with
  | |- Forall _ (events (?m ?w')) /\ _ => specialize (H w')
  end.
  split.
  - eapply Forall_impl; [|exact H]. now intros e [He _].
  - apply artifacts_under. eapply Forall_impl; [|exact H].
    now intros e [_ He].
Qed.

(** *** The message that ends a run *)

Lemma announced_app (t1 t2 : list Event) :
  announced (t1 ++ t2) = announced t1 || announced t2.
Proof. apply existsb_app. Qed.

Lemma announced_cons (e : Event) (t : list Event) :
  announced (e :: t) = is_completion (ev_call e) || announced t.
Proof. reflexivity. Qed.

Lemma announced_nil (t : list Event) :
  Forall (fun e => is_completion (ev_call e) = false) t ->
  announced t = false.
Proof.
  induction 1 as [|e t He _ IH]; [reflexivity|].
  unfold announced in *. simpl. now rewrite He, IH.
Qed.

Lemma for_groups_not_announced outpath grps grp_num w :
  announced (events (for_groups env opts outpath grps grp_num w)) = false.
Proof.
  apply announced_nil. apply emits_for_groups. intros.
  unfold_driver. emits_calls; reflexivity.
Qed.

(** X10: the message that ends a run.  ["ADCP processing complete!"] is
    printed only as the last call of a run, and only after every group the
    grouping returned has been handed to [average_transects], in order and
    once each; a run whose log lacks the message has raised. *)
Theorem X10_completion_message file w :
  let run := DWR_transect_average env opts file w in
  if announced (events run)
  then exists grps t r,
         groupings (events run) = [grps] /\
         averaged_groups (events run) = grps /\
         events run = t ++ [Ev (CPrint "ADCP processing complete!") r] /\
         announced t = false
  else exists e, outcome run = Raise e.
Proof.
  cbv zeta. unfold DWR_transect_average.
  rewrite events_bind, outcome_bind, events_preprocessor.
  rewrite announced_app, groupings_app, averaged_groups_app. simpl.
  destruct_outcome; [|simpl; eauto].
  destruct a as [transects outpath].
  rewrite events_bind, outcome_bind, events_print.
  rewrite announced_app, groupings_app, averaged_groups_app. simpl.
  destruct_outcome; [|simpl; eauto].
  rewrite events_bind, outcome_bind, events_grouping.
  rewrite announced_app, groupings_app, averaged_groups_app.
  unfold groupings at 1. simpl.
  destruct_outcome; [|simpl; eauto].
  rename a0 into grps. simpl.
  rewrite events_bind, outcome_bind, events_print.
  rewrite announced_app, groupings_app, averaged_groups_app. simpl.
  destruct_outcome; [|simpl; eauto].
  rewrite events_bind, outcome_bind.
  rewrite announced_app, groupings_app, averaged_groups_app.
  rewrite for_groups_no_grouping, for_groups_not_announced.
  match goal with
  | |- context [for_groups env opts outpath grps 0 ?w'] =>
      destruct (for_groups_averaged outpath grps 0 w') as (rest & Eg & Hr)
  end.
  simpl. destruct_outcome; [|simpl; eauto].
  subst rest. rewrite List.app_nil_r in Eg.
  rewrite events_print. simpl.
  eexists grps, _, _. split; [reflexivity|].
  split; [now rewrite List.app_nil_r|].
  split.
  - rewrite !List.app_comm_cons.
    change (?x :: ?y :: ?z :: ?u :: ?l ++ [?e]) with
      ((x :: y :: z :: u :: l) ++ [e]).
    reflexivity.
  - rewrite !announced_cons, for_groups_not_announced. reflexivity.
Qed.

(** *** Smoothing is applied once, and only above size 2 *)

Lemma events_kernel_smooth avg kernel_size w :
  events (kernel_smooth env avg kernel_size w) =
  [Ev (CKernelSmooth avg kernel_size)
      (outcome (kernel_smooth env avg kernel_size w))].
Proof. apply (events_invoke (CKernelSmooth _ _)). Qed.

(** X11: smoothing.  If [avg_smooth_kernel] is greater than 2, a group
    that reaches the smoothing step makes exactly one [kernel_smooth] call,
    and a group without such a call has raised before it; if it is 2 or
    less (the sizes 1 and 2 included) no group is ever smoothed. *)
Theorem X11_smoothing_once_above_size_two outpath grp grp_num w :
  let run := process_group env opts outpath grp grp_num w in
  if (2 <? avg_smooth_kernel opts)%Z
  then (exists e, outcome run = Raise e /\
                  select is_smooth (events run) = []) \/
       (exists avg kernel_size r,
          select is_smooth (events run) =
          [Ev (CKernelSmooth avg kernel_size) r])
  else select is_smooth (events run) = [].
Proof.
  cbv zeta.
  assert (Hxy : forall w0,
            select is_smooth
              (events (plot_xy_step env opts outpath grp grp_num w0)) = []).
  { intro. apply (plot_xy_step_select _ 3%nat), is_smooth_rank. }
  assert (Hrot : forall a w0,
            select is_smooth (events (rotation_step env opts a w0)) = []).
  { intros. apply (step_select _ 3%nat 1%nat);
      [apply rotation_step_rank|apply is_smooth_rank|lia]. }
  assert (Hsd : forall a w0,
            select is_smooth (events (sd_drop_step env opts a w0)) = []).
  { intros. apply (step_select _ 3%nat 2%nat);
      [apply sd_drop_step_rank|apply is_smooth_rank|lia]. }
  assert (Hout : forall a w0,
            select is_smooth
              (events (output_step env opts outpath a grp_num w0)) = []).
  { intros. apply (step_select _ 3%nat 4%nat);
      [apply output_step_rank|apply is_smooth_rank|lia]. }
  unfold process_group.
  rewrite select_bind, outcome_bind, Hxy. simpl.
  destruct (2 <? avg_smooth_kernel opts)%Z eqn:Hon.
  - destruct_outcome; [|left; eauto].
    rewrite select_bind, outcome_bind, events_average_transects,
      select_cons. simpl.
    destruct_outcome; [|left; eauto].
    rewrite select_bind, outcome_bind, Hrot. simpl.
    destruct_outcome; [|left; eauto].
    rewrite select_bind, outcome_bind, Hsd. simpl.
    destruct_outcome; [|left; eauto].
    right. rewrite select_bind. unfold smooth_step at 1 2. rewrite Hon.
    rewrite events_kernel_smooth, select_cons. simpl.
    destruct_outcome; [rewrite Hout|]; eauto.
  - destruct_outcome; [|reflexivity].
    rewrite select_bind, events_average_transects, select_cons. simpl.
    destruct_outcome; [|reflexivity].
    rewrite select_bind, Hrot. simpl.
    destruct_outcome; [|reflexivity].
    rewrite select_bind, Hsd. simpl.
    destruct_outcome; [|reflexivity].
    rewrite select_bind. unfold smooth_step. rewrite Hon. simpl.
    apply Hout.
Qed.

(** *** The enabled refinement steps are applied, in order *)

Lemma steps_app (t1 t2 : list Event) :
  steps (t1 ++ t2) = steps t1 ++ steps t2.
Proof. apply flat_map_app. Qed.

Lemma performs_ret {A} (a : A) : performs (ret a) [].
Proof. intro w. reflexivity. Qed.

Lemma performs_invoke c :
  performs (invoke env c)
    (match step_of c with Some s => [s] | None => [] end).
Proof.
  intro w. rewrite events_invoke. unfold steps. simpl.
  rewrite List.app_nil_r.
  destruct (outcome (invoke env c w)); [reflexivity|].
  exists []. now rewrite List.app_nil_r.
Qed.

Lemma performs_bind {A B} (m : M A) (f : A -> M B) L1 L2 :
  performs m L1 -> (forall a, performs (f a) L2) ->
  performs (bind m f) (L1 ++ L2).
Proof.
  intros Hm Hf w. specialize (Hm w).
  rewrite outcome_bind, events_bind, steps_app.
  destruct (outcome (m w)) as [a|e].
  - rewrite Hm. specialize (Hf a (final (m w))).
    destruct (outcome (f a (final (m w)))); [now rewrite Hf|].
    destruct Hf as [rest ->]. exists rest. now rewrite List.app_assoc.
  - destruct Hm as [rest ->]. exists (rest ++ L2).
    simpl. now rewrite List.app_nil_r, List.app_assoc.
Qed.

Lemma performs_quiet {A} (m : M A) :
  emits (fun e => step_of (ev_call e) = None) m -> performs m [].
Proof.
  intros H w.
  assert (E : steps (events (m w)) = []).
  { specialize (H w). induction H as [|e t He _ IH]; [reflexivity|].
    unfold steps in *. simpl. now rewrite He. }
  rewrite E. destruct (outcome (m w)); [reflexivity|now exists []].
Qed.

Lemma rotation_step_performs avg :
  performs (rotation_step env opts avg)
    (match avg_rotation opts with
     | Some rotation => [SRotate rotation]
     | None => []
     end).
Proof.
  unfold rotation_step. destruct (avg_rotation opts) as [rotation|].
  - apply (performs_invoke (CTransectRotate avg rotation)).
  - apply performs_ret.
Qed.

Lemma sd_drop_step_performs avg :
  performs (sd_drop_step env opts avg)
    (if (0 <? avg_std_drop opts)%float
     then [SSdDrop "elevation" (avg_std_interp opts);
           SSdDrop "ensemble" (avg_std_interp opts)]
     else []).
Proof.
  unfold sd_drop_step. destruct (0 <? avg_std_drop opts)%float.
  - apply (performs_bind _ _ [SSdDrop "elevation" (avg_std_interp opts)]
             [SSdDrop "ensemble" (avg_std_interp opts)]).
    + apply (performs_invoke (CSdDrop avg _ _ _)).
    + intro a. apply (performs_invoke (CSdDrop a _ _ _)).
  - apply performs_ret.
Qed.

Lemma smooth_step_performs avg :
  performs (smooth_step env opts avg)
    (if (2 <? avg_smooth_kernel opts)%Z then [SSmooth] else []).
Proof.
  unfold smooth_step. destruct (2 <? avg_smooth_kernel opts)%Z.
  - apply (performs_invoke (CKernelSmooth avg _)).
  - apply performs_ret.
Qed.

Lemma process_group_performs outpath grp grp_num :
  performs (process_group env opts outpath grp grp_num) (enabled_steps opts).
Proof.
  unfold process_group, enabled_steps.
  apply (performs_bind _ _ []).
  { apply performs_quiet. unfold_driver. emits_calls; reflexivity. }
  intros _. apply (performs_bind _ _ []).
  { apply (performs_invoke (CAverageTransects grp _ _ _)). }
  intro a0. apply performs_bind; [apply rotation_step_performs|].
  intro a1. apply performs_bind; [apply sd_drop_step_performs|].
  intro a2.
  rewrite <- (List.app_nil_r (if (2 <? avg_smooth_kernel opts)%Z
                              then [SSmooth] else [])).
  apply performs_bind; [apply smooth_step_performs|].
  intro a3. apply performs_quiet. unfold_driver. emits_calls; reflexivity.
Qed.

(** C4: in every group, under every configuration, the enabled refinement
    steps are applied to the averaged field in the fixed order.  A group
    that is processed to the end has applied exactly the steps its options
    enable (rotation if a mode is configured, the two rejection passes if
    [avg_std_drop > 0], smoothing if [avg_smooth_kernel > 2]), rotation
    first, then rejection, then smoothing; a group that raises has applied
    the first of them.  Each step works on the field that averaging or the
    step before it returned.  Among all calls that touch the field,
    averaging comes first and the writers and plotters last: no later step
    runs before an earlier one. *)
Theorem C4_refinement_order outpath grp grp_num w :
  match outcome (process_group env opts outpath grp grp_num w) with
  | Ok _ =>
      steps (events (process_group env opts outpath grp grp_num w)) =
      enabled_steps opts
  | Raise _ =>
      exists rest,
        enabled_steps opts =
        steps (events (process_group env opts outpath grp grp_num w)) ++ rest
  end /\
  threaded None (events (process_group env opts outpath grp grp_num w)) /\
  StronglySorted le
    (stages (events (process_group env opts outpath grp grp_num w))).
Proof.
  split; [apply process_group_performs|]. split.
  - apply (process_group_flows None outpath grp grp_num w).
  - apply process_group_ranked.
Qed.

(** *** Each saved figure is the one its name announces *)















End Properties.

(** ** The driver on the concrete instance *)

Example stages_of_a_group :
  firstn 7 (stages (events (process_group lenient_env default_options "out"
                              [1; 2]%nat 0 0%nat))) =
  [0; 1; 2; 2; 3; 4; 4]%nat.
Proof. vm_compute. reflexivity. Qed.

Example artifacts_of_a_run :
  artifacts (events (DWR_transect_average lenient_env default_options None
                       0%nat)) =
  ["out/group000_xy_lines.png"; "out/group000_velocity.csv";
   "out/group000.nc"; "out/group000_U_avg_n_sd.png";
   "out/group000_V_avg_n_sd.png"; "out/group000_W_avg_n_sd.png";
   "out/group000_mean_velocity.png";
   "out/group000_secondary_circulation.png";
   "out/group000_UVW_velocity.png"; "out/group000_Flow_Summary.png";
   "out/group001_xy_lines.png"; "out/group001_velocity.csv";
   "out/group001.nc"; "out/group001_U_avg_n_sd.png";
   "out/group001_V_avg_n_sd.png"; "out/group001_W_avg_n_sd.png";
   "out/group001_mean_velocity.png";
   "out/group001_secondary_circulation.png";
   "out/group001_UVW_velocity.png"; "out/group001_Flow_Summary.png"]%string.
Proof. vm_compute. reflexivity. Qed.

(** C1 at [avg_std_drop = 2.0]: rejection is enabled, and each of the four
    [sd_drop] calls of the run receives the threshold 3.0, not the
    configured 2.0. *)
Theorem C1_threshold_not_the_configured_one :
  let opts := with_std_drop default_options 2.0%float in
  let t := events (DWR_transect_average lenient_env opts None 0%nat) in
  (0 <? avg_std_drop opts)%float = true /\
  avg_std_drop opts = 2.0%float /\
  sd_args t = [3.0; 3.0; 3.0; 3.0]%float /\
  existsb (fun sd => PrimFloat.eqb sd (avg_std_drop opts)) (sd_args t) = false.
Proof. vm_compute. repeat split. Qed.

(** C2 at the shipped options ([avg_smooth_kernel = 5]): smoothing is
    enabled, and both [kernel_smooth] calls of the run receive the size 3,
    not the configured 5. *)
Theorem C2_kernel_not_the_configured_one :
  let t := events (DWR_transect_average lenient_env default_options None
                     0%nat) in
  avg_smooth_kernel default_options = 5%Z /\
  kernel_args t = [3; 3]%Z /\
  existsb (Z.eqb (avg_smooth_kernel default_options)) (kernel_args t) = false.
Proof. vm_compute. repeat split. Qed.

(** C3 fails: the grouping returns two groups, the first has a degenerate
    grid; the run ends with that exception and the second group is never
    attempted. *)
Lemma C3_failure_halts_the_batch :
  let run := DWR_transect_average strict_env default_options None 0%nat in
  In (Ev (CGroupBySpacetime demo_transects 30.0%float 20.0%float 6%Z)
        (Ok demo_groups)) (events run) /\
  outcome run = Raise "DegenerateGrid"%string /\
  ~ every_group_attempted demo_groups (events run).
Proof.
  cbv zeta. split; [|split].
  - vm_compute. right. right. left. reflexivity.
  - vm_compute. reflexivity.
  - intros H. destruct (H [1; 2]%nat) as (dxy & dz & b & r & Hin).
    { right. left. reflexivity. }
    vm_compute in Hin.
    repeat (destruct Hin as [Hin|Hin];
            [apply (f_equal ev_call) in Hin; discriminate Hin|]).
    exact Hin.
Qed.

(** C8 fails: with a horizontal bin resolution of zero nothing is detected
    before the loop; the survey-location plot of the first group is made and
    saved, and the run fails only when [average_transects] rejects the
    resolution. *)
Lemma C8_invalid_resolution_reaches_first_group :
  let opts := with_dxy default_options 0.0%float in
  let run := DWR_transect_average strict_env opts None 0%nat in
  (avg_dxy opts <=? 0)%float = true /\
  calls (events run) =
    [CPreprocessor None;
     CPrint "total transects loaded: 3";
     CGroupBySpacetime demo_transects 30.0%float 20.0%float 6%Z;
     CPrint "total groups to average 2";
     CPlotObsGroupXYLines [0]%nat "Group000 Source Observations";
     CSavefig "out/group000_xy_lines.png";
     CAverageTransects [0]%nat 0.0%float 0.25%float true] /\
  artifacts (events run) = ["out/group000_xy_lines.png"%string] /\
  outcome run = Raise "ValueError"%string.
Proof. vm_compute. repeat split. Qed.

(** Under collaborators that accept it, the same configuration runs to the
    end. *)
Example invalid_resolution_can_complete :
  outcome (DWR_transect_average lenient_env
             (with_dxy default_options 0.0%float) None 0%nat) = Ok tt.
Proof. vm_compute. reflexivity. Qed.

(** *** Instances of the conditional theorems *)

(** The smoothing stage at a configured kernel size of 1. *)
Lemma C9_small_kernel_witness :
  (avg_smooth_kernel (with_smooth_kernel default_options 1) <= 1)%Z /\
  smooth_step lenient_env (with_smooth_kernel default_options 1)
    ["rotate Rozovski"%string] 7%nat =
  MkRun 7%nat [] (Ok ["rotate Rozovski"%string]).
Proof.
  split; [simpl; lia|].
  apply (C9_small_kernel_no_smoothing lenient_env
           (with_smooth_kernel default_options 1)).
  simpl. lia.
Defined.

(** A loop over three groups whose second group has a degenerate grid. *)
Lemma C3_group_failure_witness :
  outcome (for_groups strict_env default_options "out" [[1; 2]]%nat 0
             0%nat) = Ok tt /\
  outcome (for_groups strict_env default_options "out"
             ([[1; 2]] ++ [0] :: [[3; 4]])%nat 0 0%nat) =
    Raise "DegenerateGrid"%string.
Proof.
  split; [vm_compute; reflexivity|].
  apply (C3_group_failure_ends_loop strict_env default_options "out"
           [[1; 2]]%nat [0]%nat [[3; 4]]%nat 0 0%nat "DegenerateGrid"%string).
  - vm_compute. reflexivity.
  - vm_compute. reflexivity.
Defined.

(** *** The further properties on the concrete instance *)

Example expected_artifacts_plots_only :
  expected_artifacts
    (with_smooth_kernel default_options 0) "out" 12 =
  ["out/group012_xy_lines.png"; "out/group012_velocity.csv";
   "out/group012.nc"; "out/group012_U_avg_n_sd.png";
   "out/group012_V_avg_n_sd.png"; "out/group012_W_avg_n_sd.png";
   "out/group012_mean_velocity.png";
   "out/group012_secondary_circulation.png";
   "out/group012_UVW_velocity.png"; "out/group012_Flow_Summary.png"]%string.
Proof. vm_compute. reflexivity. Qed.

(** A log in which a writer is handed a field nobody returned is not
    threaded. *)
Example threaded_rejects_unknown_field :
  ~ threaded None [Ev (CWriteNc ["rotate"%string] "out/group000.nc" true)
                      (Ok tt)].
Proof. simpl. intros [H _]. discriminate H. Qed.

(** A log in which smoothing works on the field rotation was given, not on
    the one it returned, is not threaded. *)
Example threaded_rejects_stale_field :
  ~ threaded None
      [Ev (CAverageTransects [0]%nat 2.0%float 0.25%float true) (Ok []);
       Ev (CTransectRotate [] "normal") (Ok ["rotate normal"%string]);
       Ev (CKernelSmooth [] 3) (Ok ["kernel_smooth"%string])].
Proof. simpl. intros (_ & _ & H & _). discriminate H. Qed.

Example averaged_groups_of_a_failed_run :
  averaged_groups
    (events (DWR_transect_average strict_env default_options None 0%nat)) =
  [[0]%nat] /\
  groupings
    (events (DWR_transect_average strict_env default_options None 0%nat)) =
  [demo_groups].
Proof. vm_compute. split; reflexivity. Qed.

Example steps_of_a_group :
  steps (events (process_group lenient_env default_options "out"
                   [1; 2]%nat 0 0%nat)) =
  [SRotate "Rozovski"; SSdDrop "elevation" true; SSdDrop "ensemble" true;
   SSmooth] /\
  enabled_steps default_options =
  [SRotate "Rozovski"; SSdDrop "elevation" true; SSdDrop "ensemble" true;
   SSmooth].
Proof. vm_compute. split; reflexivity. Qed.

Example saved_figures_of_a_group :
  saved (None, None)
    (events (process_group lenient_env default_options "out"
               [1; 2]%nat 0 0%nat)) =
  [(Some ShXY, "out/group000_xy_lines.png");
   (Some (ShPanels (PyInt 0)), "out/group000_U_avg_n_sd.png");
   (Some (ShPanels (PyInt 1)), "out/group000_V_avg_n_sd.png");
   (Some (ShPanels (PyInt 2)), "out/group000_W_avg_n_sd.png");
   (Some ShMean, "out/group000_mean_velocity.png");
   (Some ShSecondary, "out/group000_secondary_circulation.png");
   (Some ShUVW, "out/group000_UVW_velocity.png");
   (Some ShFlow, "out/group000_Flow_Summary.png")]%string.
Proof. vm_compute. reflexivity. Qed.

(** A panel file named after another component than the one shown is not
    named after its figure. *)
Example named_after_figure_rejects_wrong_letter :
  ~ named_after_figure "out" 0
      (Some (ShPanels (PyInt 0)), "out/group000_V_avg_n_sd.png"%string).
Proof. intros (s & Hs & Hp). simpl in Hs. injection Hs as <-. discriminate Hp. Qed.
